(** * keysort: a Schwartzian-transform adapter for Go's sort.Interface

    Shallow embedding of the two versions of package [keysort]:
    - [Plain]: keysort.go (memo only, errors of [Key] are dropped);
    - [Aware]: the error-aware version (memo, errors, [ClearErrors],
      [RetryFailed], [Errors], [PrimingError]).

    Go's [int] is [Z]; a slice is a [list] indexed by [Z] with the run-time
    bounds check written out; a Go map is a [gmap]; a panic is the outcome
    [Panicked], and the state reached when the panic starts is kept.
    Executions are sequential: the mutex is not modelled, and the worker
    pool of the primer is the schedule in which the indexes are handled in
    the order in which they are sent. *)

From Stdlib Require Import ZArith Lia List.
From stdpp Require Import base option list gmap strings pretty.

Local Open Scope Z_scope.

(** ** Go run-time model *)

Module Go.

(** Result of a call: it returns a value or it panics. *)
Inductive outcome (A : Type) : Type :=
| Returned (a : A)
| Panicked.
Arguments Returned {A} a.
Arguments Panicked {A}.

(** A method with a receiver of state [S]: the state is threaded, also
    through a panic. *)
Definition go (S A : Type) : Type := S -> outcome A * S.

Definition ret {S A} (a : A) : go S A := fun s => (Returned a, s).

Definition bind {S A B} (c : go S A) (k : A -> go S B) : go S B :=
  fun s =>
    match c s with
    | (Returned a, s') => k a s'
    | (Panicked, s') => (Panicked, s')
    end.

(** [for _, x := range l { f(x) }] *)
Fixpoint each {S} (f : Z -> go S unit) (l : list Z) : go S unit :=
  match l with
  | [] => ret tt
  | x :: l' => bind (f x) (fun _ => each f l')
  end.

(** [s[i]]: [None] is the index-out-of-range panic. *)
Definition index {A} (s : list A) (i : Z) : option A :=
  if decide (0 <= i) then s !! Z.to_nat i else None.

(** [s[i] = x], for an index that passed the bounds check. *)
Definition store {A} (s : list A) (i : Z) (x : A) : list A :=
  <[Z.to_nat i := x]> s.

(** [s[i], s[j] = s[j], s[i]]: both operands are read (and bounds
    checked) first, then the two assignments are done left to right. *)
Definition exchange {A} (s : list A) (i j : Z) : option (list A) :=
  match index s j, index s i with
  | Some sj, Some si => Some (store (store s i sj) j si)
  | _, _ => None
  end.

(** The values [0, 1, ..., n-1] (nothing when [n <= 0]). *)
Definition iota (n : Z) : list Z := Z.of_nat <$> seq 0 (Z.to_nat n).

(** Number of worker goroutines started by the primer. *)
Definition workers (GOMAXPROCS parallelism : Z) : Z :=
  if decide (parallelism < 1) then GOMAXPROCS else parallelism.

(** [i] is a valid index of a slice of length [n]. *)
Definition in_range (n : nat) (i : Z) : Prop := 0 <= i < Z.of_nat n.

End Go.
Export Go.

Notation "x <~ c ;; k" := (bind c (fun x => k))
  (at level 100, c at next level, right associativity).
Notation "c ;;; k" := (bind c (fun _ => k))
  (at level 100, right associativity).

(** A permutation map of length [n] is a bijection on [[0, n)]: every slot
    holds an identity of the range, no identity is in two slots, and every
    identity of the range is in a slot. *)
Definition bijection (m : list Z) : Prop :=
  (forall p id, index m p = Some id -> in_range (length m) id) /\
  (forall p q id, index m p = Some id -> index m q = Some id -> p = q) /\
  (forall id, in_range (length m) id -> exists p, index m p = Some id).

(** ** Facts about slices *)

Section Slices.
Context {A : Type}.
Implicit Types (s : list A) (i j k : Z).

Lemma index_Some s i a :
  index s i = Some a <-> 0 <= i /\ s !! Z.to_nat i = Some a.
Proof.
  unfold index. destruct (decide (0 <= i)) as [Hi|Hi]; [tauto|].
  split; [discriminate | intros [? _]; lia].
Qed.

Lemma index_in_range s i : in_range (length s) i <-> is_Some (index s i).
Proof.
  unfold in_range, index. case_decide.
  - rewrite lookup_lt_is_Some. lia.
  - split; [lia | intros [? ?]; discriminate].
Qed.

Lemma index_lt s i a : index s i = Some a -> in_range (length s) i.
Proof. intros H. apply index_in_range. eauto. Qed.

Lemma length_store s i a : length (store s i a) = length s.
Proof. apply length_insert. Qed.

Lemma index_store s i k a :
  in_range (length s) i ->
  index (store s i a) k = if decide (k = i) then Some a else index s k.
Proof.
  intros Hi. unfold index, store, in_range in *.
  case_decide as Hk; case_decide as Hki; subst; try lia; try done.
  - apply list_lookup_insert_eq. lia.
  - apply list_lookup_insert_ne. lia.
Qed.

Lemma exchange_Some s i j si sj :
  index s i = Some si -> index s j = Some sj ->
  exchange s i j = Some (store (store s i sj) j si).
Proof. intros Hi Hj. unfold exchange. by rewrite Hi, Hj. Qed.

Lemma exchange_inv s i j s' :
  exchange s i j = Some s' ->
  exists si sj, index s i = Some si /\ index s j = Some sj /\
                s' = store (store s i sj) j si.
Proof.
  unfold exchange. destruct (index s j) as [sj|], (index s i) as [si|];
    intros ?; simplify_eq. eauto.
Qed.

Lemma exchange_in_range s i j :
  in_range (length s) i -> in_range (length s) j -> is_Some (exchange s i j).
Proof.
  intros [si Hi]%index_in_range [sj Hj]%index_in_range.
  erewrite exchange_Some by eassumption. eauto.
Qed.

Lemma exchange_length s i j s' : exchange s i j = Some s' -> length s' = length s.
Proof.
  intros (si & sj & _ & _ & ->)%exchange_inv. by rewrite !length_store.
Qed.

(** Reading after the exchange: positions [i] and [j] are crossed, the
    others are as before. *)
Lemma exchange_index s i j s' k :
  exchange s i j = Some s' ->
  index s' k =
    if decide (k = j) then index s i
    else if decide (k = i) then index s j else index s k.
Proof.
  intros (si & sj & Hi & Hj & ->)%exchange_inv.
  pose proof (index_lt _ _ _ Hi). pose proof (index_lt _ _ _ Hj).
  rewrite index_store by (by rewrite length_store).
  case_decide; [done|]. rewrite index_store by done.
  by case_decide.
Qed.

Lemma index_ext s1 s2 : (forall k, index s1 k = index s2 k) -> s1 = s2.
Proof.
  intros H. apply list_eq. intros n. specialize (H (Z.of_nat n)).
  unfold index in H. case_decide; [|lia]. by rewrite Nat2Z.id in H.
Qed.

Lemma exchange_twice s i j s' : exchange s i j = Some s' -> exchange s' i j = Some s.
Proof.
  intros H. pose proof (exchange_inv _ _ _ _ H) as (si & sj & Hi & Hj & _).
  assert (Hi' : index s' i = Some sj).
  { rewrite (exchange_index _ _ _ _ _ H). repeat case_decide; congruence. }
  assert (Hj' : index s' j = Some si).
  { rewrite (exchange_index _ _ _ _ _ H). repeat case_decide; congruence. }
  rewrite (exchange_Some _ _ _ _ _ Hi' Hj'). f_equal.
  apply index_ext. intros k.
  pose proof (index_lt _ _ _ Hi'). pose proof (index_lt _ _ _ Hj').
  rewrite index_store by (by rewrite length_store).
  case_decide; [congruence|]. rewrite index_store by done.
  case_decide; [congruence|].
  rewrite (exchange_index _ _ _ _ _ H). by repeat case_decide.
Qed.

Lemma exchange_same s i : in_range (length s) i -> exchange s i i = Some s.
Proof.
  intros [si Hi]%index_in_range. rewrite (exchange_Some _ _ _ _ _ Hi Hi).
  f_equal. apply index_ext. intros k.
  pose proof (index_lt _ _ _ Hi).
  rewrite index_store by (by rewrite length_store).
  case_decide; [congruence|]. rewrite index_store by done.
  by case_decide.
Qed.

Lemma exchange_comm s i j : exchange s i j = exchange s j i.
Proof.
  destruct (exchange s i j) as [s1|] eqn:H1, (exchange s j i) as [s2|] eqn:H2.
  - f_equal. apply index_ext. intros k.
    rewrite (exchange_index _ _ _ _ _ H1), (exchange_index _ _ _ _ _ H2).
    repeat case_decide; congruence.
  - apply exchange_inv in H1 as (si & sj & Hi & Hj & _).
    by rewrite (exchange_Some _ _ _ _ _ Hj Hi) in H2.
  - apply exchange_inv in H2 as (sj & si & Hj & Hi & _).
    by rewrite (exchange_Some _ _ _ _ _ Hi Hj) in H1.
  - done.
Qed.

Lemma exchange_Permutation s i j s' : exchange s i j = Some s' -> s' ≡ₚ s.
Proof.
  intros H. pose proof (exchange_inv _ _ _ _ H) as (si & sj & Hi & Hj & _).
  apply index_Some in Hi as [Hi0 Hi], Hj as [Hj0 Hj].
  apply Permutation_inj. split; [by eapply exchange_length|].
  exists (fun n => if decide (n = Z.to_nat j) then Z.to_nat i
                   else if decide (n = Z.to_nat i) then Z.to_nat j else n).
  split.
  - intros n1 n2. repeat case_decide; lia.
  - intros n. pose proof (exchange_index _ _ _ _ (Z.of_nat n) H) as Hn.
    unfold index in Hn. rewrite Nat2Z.id in Hn.
    repeat case_decide; try lia; subst; rewrite Hn; try done.
    all: by rewrite ?Z2Nat.id in * by lia.
Qed.

End Slices.

(** ** Relations kept by sequencing

    A relation between the state before and after a call that is reflexive
    and transitive and holds for every step holds for [bind], for [each]
    and for a sequence of calls. *)

Section Preserved.
Context {S : Type} (R : S -> S -> Prop) `{!PreOrder R}.

Lemma bind_preserved {A B} (c : go S A) (k : A -> go S B) s :
  (forall s, R s (c s).2) -> (forall a s, R s (k a s).2) -> R s (bind c k s).2.
Proof.
  intros Hc Hk. unfold bind. specialize (Hc s).
  destruct (c s) as [[a|] s']; simpl in *; [|done].
  etrans; [exact Hc | apply Hk].
Qed.

Lemma each_preserved (f : Z -> go S unit) l s :
  (forall x s, R s (f x s).2) -> R s (each f l s).2.
Proof.
  intros Hf. revert s. induction l as [|x l IH]; intros s; simpl; [done|].
  apply bind_preserved; [apply Hf | intros _ s'; apply IH].
Qed.

Lemma foldl_preserved {C} (step : S -> C -> S) cs s :
  (forall s c, R s (step s c)) -> R s (foldl step s cs).
Proof.
  intros Hstep. revert s. induction cs as [|c cs IH]; intros s; simpl; [done|].
  etrans; [apply Hstep | apply IH].
Qed.

End Preserved.

Lemma iota_length n : length (iota n) = Z.to_nat n.
Proof. unfold iota. by rewrite length_fmap, length_seq. Qed.

Lemma iota_index n i : index (iota n) i = if decide (0 <= i < n) then Some i else None.
Proof.
  unfold index, iota. rewrite list_lookup_fmap.
  case_decide as H0; case_decide as H1; try lia; try done.
  - rewrite lookup_seq_lt by lia. simpl. f_equal. lia.
  - rewrite lookup_seq_ge by lia. done.
Qed.

Lemma iota_bijection n : bijection (iota n).
Proof.
  unfold bijection, in_range. rewrite iota_length. split; [|split].
  - intros p id H. rewrite iota_index in H. case_decide; simplify_eq. lia.
  - intros p q id Hp Hq. rewrite iota_index in Hp, Hq.
    repeat case_decide; congruence.
  - intros id Hid. exists id. rewrite iota_index. case_decide; [done | lia].
Qed.

(** A slice with the same elements as a bijection of the same length is a
    bijection: this is what an exchange preserves. *)
Lemma bijection_Permutation (m m' : list Z) : m' ≡ₚ m -> bijection m -> bijection m'.
Proof.
  intros HP (Hran & Hinj & Hsur).
  assert (Hlen : length m' = length m) by (by rewrite HP).
  assert (Hnd : NoDup m).
  { apply NoDup_alt. intros a b x Ha Hb.
    assert (Z.of_nat a = Z.of_nat b); [|lia].
    apply (Hinj _ _ x); apply index_Some; rewrite Nat2Z.id; split; auto; lia. }
  assert (Hnd' : NoDup m') by (by rewrite HP).
  split; [|split].
  - intros p id [? H]%index_Some. rewrite Hlen.
    apply list_elem_of_lookup_2 in H. rewrite HP in H.
    apply list_elem_of_lookup_1 in H as [a Ha].
    apply (Hran (Z.of_nat a) id). apply index_Some. rewrite Nat2Z.id. split; [lia|done].
  - intros p q id [? Hp]%index_Some [? Hq]%index_Some.
    pose proof (NoDup_lookup _ _ _ _ Hnd' Hp Hq). lia.
  - intros id Hid. rewrite Hlen in Hid. destruct (Hsur id Hid) as [p [? Hp]%index_Some].
    apply list_elem_of_lookup_2 in Hp. rewrite <- HP in Hp.
    apply list_elem_of_lookup_1 in Hp as [a Ha].
    exists (Z.of_nat a). apply index_Some. rewrite Nat2Z.id. split; [lia|done].
Qed.

(** The primer always starts at least one worker when the run time reports
    at least one processor. *)
Lemma workers_positive GOMAXPROCS parallelism :
  1 <= GOMAXPROCS -> 1 <= workers GOMAXPROCS parallelism.
Proof. intros H. unfold workers. case_decide; lia. Qed.

(** ** The interface a wrapped container implements

    [keysort.Interface]: the four methods of the container, as functions of
    the container's current contents [W]. [Swap] changes the container;
    [Key] and [Swap] are user code and may panic. *)

Module Wrapped.

Record Interface (W K E : Type) : Type := {
  LessVal : W -> K -> K -> bool;
  Key : W -> Z -> outcome (K * option E);
  Swap : W -> Z -> Z -> outcome W;
  Len : W -> Z
}.
Arguments LessVal {W K E}.
Arguments Key {W K E}.
Arguments Swap {W K E}.
Arguments Len {W K E}.

End Wrapped.

(** [sort.Interface], as the external sort algorithm sees a collection. *)
Module Sort.

Record Interface (S : Type) : Type := {
  Len : go S Z;
  Less : Z -> Z -> go S bool;
  Swap : Z -> Z -> go S unit
}.
Arguments Len {S}.
Arguments Less {S}.
Arguments Swap {S}.

(** A deterministic comparison sort, unfolded for one length: it stops,
    swaps two positions, or compares two positions and goes on according to
    the answer. *)
Inductive script : Type :=
| Halt
| DoSwap (i j : Z) (next : script)
| DoLess (i j : Z) (next : bool -> script).

(** The algorithm itself reads [Len] once and follows the script for it. *)
Definition algorithm : Type := Z -> script.

Fixpoint follow {S} (data : Interface S) (p : script) : go S unit :=
  match p with
  | Halt => ret tt
  | DoSwap i j next => Swap data i j ;;; follow data next
  | DoLess i j next => b <~ Less data i j ;; follow data (next b)
  end.

(** [sort.Sort(data)] for the algorithm [alg]. *)
Definition Sort {S} (alg : algorithm) (data : Interface S) : go S unit :=
  fun s =>
    match Len data s with
    | (Returned n, s') => follow data (alg n) s'
    | (Panicked, s') => (Panicked, s')
    end.

End Sort.

(** ** What every operation keeps of the memo

    [cache_kept m calls m' calls']: going from memo [m] and call log [calls]
    to [m'] and [calls'], no entry of [m] was removed or replaced, and the
    user key function was called only for identities that [m] did not hold. *)

Definition cache_kept {K} (m : gmap Z K) (calls : list Z)
    (m' : gmap Z K) (calls' : list Z) : Prop :=
  m ⊆ m' /\
  exists extra, calls' = extra ++ calls /\ Forall (fun id => m !! id = None) extra.

Lemma cache_kept_refl {K} (m : gmap Z K) calls : cache_kept m calls m calls.
Proof. split; [done|]. exists []. split; [done | constructor]. Qed.

Lemma cache_kept_trans {K} (m1 m2 m3 : gmap Z K) c1 c2 c3 :
  cache_kept m1 c1 m2 c2 -> cache_kept m2 c2 m3 c3 -> cache_kept m1 c1 m3 c3.
Proof.
  intros [Hs1 (e1 & -> & He1)] [Hs2 (e2 & -> & He2)]. split; [by etrans|].
  exists (e2 ++ e1). split; [by rewrite app_assoc|].
  apply Forall_app. split; [|done].
  eapply Forall_impl; [exact He2|]. simpl. intros id Hid.
  destruct (m1 !! id) as [v|] eqn:Hv; [|done].
  eapply lookup_weaken in Hv; [|exact Hs1]. congruence.
Qed.

(** A first computation of identity [id]: one more call, one more entry. *)
Lemma cache_kept_insert {K} (m : gmap Z K) calls id v :
  m !! id = None -> cache_kept m calls (<[id := v]> m) (id :: calls).
Proof.
  intros Hid. split; [by apply insert_subseteq|].
  exists [id]. split; [done|]. by constructor.
Qed.

Lemma cache_kept_call {K} (m : gmap Z K) calls id :
  m !! id = None -> cache_kept m calls m (id :: calls).
Proof.
  intros Hid. split; [done|]. exists [id]. split; [done|]. by constructor.
Qed.

(** What [cache_kept] gives for one cached identity. *)
Lemma cache_kept_cached {K} (m m' : gmap Z K) calls calls' id v :
  cache_kept m calls m' calls' -> m !! id = Some v ->
  m' !! id = Some v /\ exists extra, calls' = extra ++ calls /\ id ∉ extra.
Proof.
  intros [Hs (extra & -> & He)] Hv. split; [by eapply lookup_weaken|].
  exists extra. split; [done|]. intros Hin.
  rewrite Forall_forall in He. specialize (He _ Hin). congruence.
Qed.

(** ** keysort.go *)

Module Plain.
Section Adapter.
Context {W K E : Type}.
Variable wr : Wrapped.Interface W K E.

(** [keySortable]: the wrapped container, the swaps slice and the memo.
    [keyCalls] is not a field of the Go struct: it logs the arguments of the
    calls to [wrapped.Key], latest first, so that theorems can count them.
    The struct is passed by value but its slice and map are shared, so one
    record stands for all copies. *)
Record keySortable : Type := {
  wrapped : W;
  swaps : list Z;
  memo : gmap Z K;
  keyCalls : list Z
}.

Definition set_wrapped (w : W) (ks : keySortable) : keySortable :=
  {| wrapped := w; swaps := swaps ks; memo := memo ks; keyCalls := keyCalls ks |}.

Definition set_swaps (sw : list Z) (ks : keySortable) : keySortable :=
  {| wrapped := wrapped ks; swaps := sw; memo := memo ks; keyCalls := keyCalls ks |}.

Definition set_memo (m : gmap Z K) (ks : keySortable) : keySortable :=
  {| wrapped := wrapped ks; swaps := swaps ks; memo := m; keyCalls := keyCalls ks |}.

Definition called (id : Z) (ks : keySortable) : keySortable :=
  {| wrapped := wrapped ks; swaps := swaps ks; memo := memo ks;
     keyCalls := id :: keyCalls ks |}.

(** [func Keysort(wrapped Interface) (ks keySortable)]: [make] panics on a
    negative length; the loop fills [swaps[i] = i]. The length above which
    [make] cannot allocate is not modelled: what is proved of a returned
    adapter does not depend on it. *)
Definition Keysort (w : W) : outcome keySortable :=
  let wrappedLen := Wrapped.Len wr w in
  if decide (wrappedLen < 0) then Panicked
  else Returned {| wrapped := w; swaps := iota wrappedLen; memo := ∅; keyCalls := [] |}.

(** [func (ks keySortable) Key(i int) (interface{}, error)] *)
Definition Key (i : Z) : go keySortable (K * option E) := fun ks =>
  match index (swaps ks) i with
  | None => (Panicked, ks)
  | Some originalIndex =>
      match memo ks !! originalIndex with
      | Some value => (Returned (value, None), ks)
      | None =>
          let ks := called originalIndex ks in
          match Wrapped.Key wr (wrapped ks) originalIndex with
          | Panicked => (Panicked, ks)
          | Returned (value, err) =>
              (Returned (value, err),
               set_memo (<[originalIndex := value]> (memo ks)) ks)
          end
      end
  end.

(** [func (ks keySortable) Less(i, j int) bool] *)
Definition Less (i j : Z) : go keySortable bool :=
  IValue <~ Key i ;;
  JValue <~ Key j ;;
  fun ks => (Returned (Wrapped.LessVal wr (wrapped ks) IValue.1 JValue.1), ks).

(** [func (ks keySortable) Len() int] *)
Definition Len : go keySortable Z :=
  fun ks => (Returned (Wrapped.Len wr (wrapped ks)), ks).

(** [func (ks keySortable) Swap(i, j int)] *)
Definition Swap (i j : Z) : go keySortable unit := fun ks =>
  match exchange (swaps ks) i j with
  | None => (Panicked, ks)
  | Some swaps' =>
      let ks := set_swaps swaps' ks in
      match Wrapped.Swap wr (wrapped ks) i j with
      | Panicked => (Panicked, ks)
      | Returned w => (Returned tt, set_wrapped w ks)
      end
  end.

(** [func (ks keySortable) prime(parallelism int) error]: the indexes
    [0 .. Len()-1] are sent in order and each is given to [Key]; the number
    of workers, [workers GOMAXPROCS parallelism], does not change which
    indexes are handled. The model runs the calls of [Key] one after the
    other in the order the indexes are sent, which is what one worker does;
    with more workers the calls may happen in another order, and they are
    not synchronised (the methods have value receivers, so each call locks
    its own copy of [lock]). *)
Definition prime (parallelism : Z) : go keySortable unit :=
  fun ks => each (fun val => Key val ;;; ret tt) (iota (Wrapped.Len wr (wrapped ks))) ks.

(** [func PrimedKeysort(wrapped Interface, parallelism int) (ks keySortable)] *)
Definition PrimedKeysort (w : W) (parallelism : Z) : outcome keySortable :=
  match Keysort w with
  | Panicked => Panicked
  | Returned ks =>
      match prime parallelism ks with
      | (Returned _, ks') => Returned ks'
      | (Panicked, _) => Panicked
      end
  end.

(** The adapter as a [sort.Interface]. *)
Definition adapter : Sort.Interface keySortable :=
  {| Sort.Len := Len; Sort.Less := Less; Sort.Swap := Swap |}.

(** Calls a client can make on an adapter, and the state after a sequence
    of them (a panic of one call does not stop the client). *)
Inductive call : Type :=
| CallKey (i : Z)
| CallLess (i j : Z)
| CallSwap (i j : Z)
| CallLen
| CallPrime (parallelism : Z).

Definition perform (ks : keySortable) (c : call) : keySortable :=
  match c with
  | CallKey i => (Key i ks).2
  | CallLess i j => (Less i j ks).2
  | CallSwap i j => (Swap i j ks).2
  | CallLen => (Len ks).2
  | CallPrime parallelism => (prime parallelism ks).2
  end.

Definition performs (cs : list call) (ks : keySortable) : keySortable :=
  foldl perform ks cs.

Definition kept (ks ks' : keySortable) : Prop :=
  cache_kept (memo ks) (keyCalls ks) (memo ks') (keyCalls ks').

#[local] Instance plain_kept_preorder : PreOrder kept.
Proof.
  split; [intros ks; apply cache_kept_refl|].
  intros ks1 ks2 ks3. apply cache_kept_trans.
Qed.

Lemma plain_Key_kept i ks : kept ks (Key i ks).2.
Proof.
  unfold Key. destruct (index (swaps ks) i) as [id|]; [|done].
  destruct (memo ks !! id) as [v|] eqn:Hm; [done|].
  simpl. destruct (Wrapped.Key wr (wrapped ks) id) as [[value err]|]; simpl.
  - by apply cache_kept_insert.
  - by apply cache_kept_call.
Qed.

Lemma plain_Less_kept i j ks : kept ks (Less i j ks).2.
Proof.
  unfold Less. apply (bind_preserved kept); [apply plain_Key_kept|]. intros a s.
  apply (bind_preserved kept); [apply plain_Key_kept | done].
Qed.

Lemma plain_Swap_kept i j ks : kept ks (Swap i j ks).2.
Proof.
  unfold Swap. destruct (exchange (swaps ks) i j); [|done].
  simpl. destruct (Wrapped.Swap wr (wrapped ks) i j); apply cache_kept_refl.
Qed.

Lemma plain_prime_kept parallelism ks : kept ks (prime parallelism ks).2.
Proof.
  unfold prime. apply (each_preserved kept). intros x s.
  apply (bind_preserved kept); [apply plain_Key_kept | done].
Qed.

Lemma plain_perform_kept ks c : kept ks (perform ks c).
Proof.
  destruct c; simpl.
  - apply plain_Key_kept.
  - apply plain_Less_kept.
  - apply plain_Swap_kept.
  - done.
  - apply plain_prime_kept.
Qed.

Lemma plain_performs_kept cs ks : kept ks (performs cs ks).
Proof. apply (foldl_preserved kept). apply plain_perform_kept. Qed.

(** A cached identity is answered from the memo: no call, no change. *)
Lemma plain_Key_cached i id v ks :
  index (swaps ks) i = Some id -> memo ks !! id = Some v ->
  Key i ks = (Returned (v, None), ks).
Proof. intros Hi Hm. unfold Key. by rewrite Hi, Hm. Qed.

(** [Swap] on the permutation map: the two slots are exchanged, or nothing
    happens when an index is out of range (the call panics). *)
Lemma plain_Swap_swaps i j ks :
  swaps (Swap i j ks).2 = default (swaps ks) (exchange (swaps ks) i j).
Proof.
  unfold Swap. destruct (exchange (swaps ks) i j); [|done].
  simpl. by destruct (Wrapped.Swap wr (wrapped ks) i j).
Qed.

(** [Swap] forwards the same swap to the wrapped container. *)
Lemma plain_Swap_wrapped i j ks sw w :
  exchange (swaps ks) i j = Some sw -> Wrapped.Swap wr (wrapped ks) i j = Returned w ->
  Swap i j ks =
    (Returned tt,
     {| wrapped := w; swaps := sw; memo := memo ks; keyCalls := keyCalls ks |}).
Proof. intros Hx Hw. unfold Swap. rewrite Hx. simpl. by rewrite Hw. Qed.

(** Every call leaves in [swaps] a rearrangement of what it found. *)
Definition rearranged (ks ks' : keySortable) : Prop := swaps ks' ≡ₚ swaps ks.

#[local] Instance plain_rearranged_preorder : PreOrder rearranged.
Proof.
  split.
  - intros ks. unfold rearranged. reflexivity.
  - intros ks1 ks2 ks3 H1 H2. unfold rearranged in *. by rewrite H2.
Qed.

Lemma plain_Key_swaps i ks : swaps (Key i ks).2 = swaps ks.
Proof.
  unfold Key. destruct (index (swaps ks) i) as [id|]; [|done].
  destruct (memo ks !! id); [done|]. simpl.
  by destruct (Wrapped.Key wr (wrapped ks) id) as [[??]|].
Qed.

Lemma plain_Key_rearranged i ks : rearranged ks (Key i ks).2.
Proof. unfold rearranged. by rewrite plain_Key_swaps. Qed.

Lemma plain_perform_rearranged ks c : rearranged ks (perform ks c).
Proof.
  destruct c; simpl.
  - apply plain_Key_rearranged.
  - unfold Less. apply (bind_preserved rearranged); [apply plain_Key_rearranged|].
    intros a s. apply (bind_preserved rearranged); [apply plain_Key_rearranged | done].
  - unfold rearranged. rewrite plain_Swap_swaps.
    destruct (exchange (swaps ks) i j) as [sw|] eqn:Hx; [|done].
    by eapply exchange_Permutation.
  - done.
  - unfold prime. apply (each_preserved rearranged). intros x s.
    apply (bind_preserved rearranged); [apply plain_Key_rearranged | done].
Qed.

Lemma plain_performs_rearranged cs ks : rearranged ks (performs cs ks).
Proof. apply (foldl_preserved rearranged). apply plain_perform_rearranged. Qed.

Lemma plain_Keysort_inv w ks :
  Keysort w = Returned ks ->
  wrapped ks = w /\ swaps ks = iota (Wrapped.Len wr w) /\ memo ks = ∅ /\ keyCalls ks = [].
Proof. unfold Keysort. case_decide; intros ?; simplify_eq. done. Qed.

End Adapter.
Arguments keySortable : clear implicits.
End Plain.

(** ** The error-aware version *)

(** [delete(m, k)] for every [k] of a list. *)
Definition delete_all {V} (m : gmap Z V) (ks : list Z) : gmap Z V :=
  foldl (fun m k => delete k m) m ks.

Lemma delete_all_lookup {V} (m : gmap Z V) ks k :
  delete_all m ks !! k = if decide (k ∈ ks) then None else m !! k.
Proof.
  unfold delete_all. revert m. induction ks as [|x ks IH]; intros m; cbn [foldl].
  - rewrite decide_False; [done | apply not_elem_of_nil].
  - rewrite IH. destruct (decide (k ∈ ks)) as [Hin|Hnin].
    + rewrite decide_True; [done | by right].
    + destruct (decide (k = x)) as [->|Hne].
      * rewrite decide_True by (by left). apply lookup_delete_eq.
      * rewrite decide_False; [by apply lookup_delete_ne|].
        intros [?|?]%elem_of_cons; done.
Qed.

Lemma delete_all_keys {V} (m : gmap Z V) : delete_all m (map_to_list m).*1 = ∅.
Proof.
  apply map_eq. intros k. rewrite delete_all_lookup, lookup_empty.
  case_decide as H; [done|]. destruct (m !! k) as [v|] eqn:Hk; [|done].
  exfalso. apply H. apply list_elem_of_fmap. exists (k, v).
  split; [done|]. by apply elem_of_map_to_list.
Qed.

Module PrimingError.
Section Rendering.
Context {E : Type}.
(** [err.Error()] of a recorded error. *)
Variable message : E -> string.

(** [type PrimingError struct { Errors map[int]error }] *)
Record t : Type := { Errors : gmap Z E }.

Definition newline : string := String (Ascii.ascii_of_nat 10) EmptyString.
Definition tab : string := String (Ascii.ascii_of_nat 9) EmptyString.

(** [fmt.Sprintf("%d: %s", i, err.Error())] *)
Definition entry (p : Z * E) : string := pretty p.1 +:+ ": " +:+ message p.2.

(** The string built from the entries in the order [visited] in which
    [range] went through the map. The separator given to [strings.Join]
    holds a literal percent-s. *)
Definition render (visited : list (Z * E)) : string :=
  "Problem pre-computing Key functions." +:+ newline +:+
  String.concat (tab +:+ "%s" +:+ newline) (entry <$> visited) +:+ newline.

(** [func (e PrimingError) Error() string]: Go does not fix the order in
    which [range] visits a map, so [Error] relates the value to every string
    it can return. *)
Inductive Error (e : t) : string -> Prop :=
| Error_visit visited :
    visited ≡ₚ map_to_list (Errors e) -> Error e (render visited).

End Rendering.
Arguments t E : clear implicits.
End PrimingError.

Module Aware.
Section Adapter.
Context {W K E : Type}.
Variable wr : Wrapped.Interface W K E.

(** [keySortable], with the [errors] map; [keyCalls] logs the arguments of
    the calls to [wrapped.Key], latest first, and is not a field of the Go
    struct. *)
Record keySortable : Type := {
  wrapped : W;
  swaps : list Z;
  memo : gmap Z K;
  errors : gmap Z E;
  keyCalls : list Z
}.

Definition set_wrapped (w : W) (ks : keySortable) : keySortable :=
  {| wrapped := w; swaps := swaps ks; memo := memo ks; errors := errors ks;
     keyCalls := keyCalls ks |}.

Definition set_swaps (sw : list Z) (ks : keySortable) : keySortable :=
  {| wrapped := wrapped ks; swaps := sw; memo := memo ks; errors := errors ks;
     keyCalls := keyCalls ks |}.

Definition set_memo (m : gmap Z K) (ks : keySortable) : keySortable :=
  {| wrapped := wrapped ks; swaps := swaps ks; memo := m; errors := errors ks;
     keyCalls := keyCalls ks |}.

Definition set_errors (e : gmap Z E) (ks : keySortable) : keySortable :=
  {| wrapped := wrapped ks; swaps := swaps ks; memo := memo ks; errors := e;
     keyCalls := keyCalls ks |}.

Definition called (id : Z) (ks : keySortable) : keySortable :=
  {| wrapped := wrapped ks; swaps := swaps ks; memo := memo ks; errors := errors ks;
     keyCalls := id :: keyCalls ks |}.

(** [func Keysort(wrapped Interface) (ks keySortable)] *)
Definition Keysort (w : W) : outcome keySortable :=
  let wrappedLen := Wrapped.Len wr w in
  if decide (wrappedLen < 0) then Panicked
  else Returned {| wrapped := w; swaps := iota wrappedLen; memo := ∅; errors := ∅;
                   keyCalls := [] |}.

(** [func (ks keySortable) Key(i int) interface{}] *)
Definition Key (i : Z) : go keySortable K := fun ks =>
  match index (swaps ks) i with
  | None => (Panicked, ks)
  | Some originalIndex =>
      match memo ks !! originalIndex with
      | Some value => (Returned value, ks)
      | None =>
          let ks := called originalIndex ks in
          match Wrapped.Key wr (wrapped ks) originalIndex with
          | Panicked => (Panicked, ks)
          | Returned (value, err) =>
              let ks := set_memo (<[originalIndex := value]> (memo ks)) ks in
              let ks :=
                match err with
                | Some err => set_errors (<[originalIndex := err]> (errors ks)) ks
                | None => set_errors (delete originalIndex (errors ks)) ks
                end in
              (Returned value, ks)
          end
      end
  end.

(** [func (ks keySortable) Errors() error]: [None] is the nil error. *)
Definition Errors (ks : keySortable) : option (PrimingError.t E) :=
  if decide (size (errors ks) = 0%nat) then None
  else Some {| PrimingError.Errors := errors ks |}.

(** [func (ks keySortable) Less(i, j int) bool] *)
Definition Less (i j : Z) : go keySortable bool :=
  IValue <~ Key i ;;
  JValue <~ Key j ;;
  fun ks =>
    match Errors ks with
    | Some _ => (Returned false, ks)
    | None => (Returned (Wrapped.LessVal wr (wrapped ks) IValue JValue), ks)
    end.

(** [func (ks keySortable) Len() int] *)
Definition Len : go keySortable Z :=
  fun ks => (Returned (Wrapped.Len wr (wrapped ks)), ks).

(** [func (ks keySortable) Swap(i, j int)] *)
Definition Swap (i j : Z) : go keySortable unit := fun ks =>
  match exchange (swaps ks) i j with
  | None => (Panicked, ks)
  | Some swaps' =>
      let ks := set_swaps swaps' ks in
      match Wrapped.Swap wr (wrapped ks) i j with
      | Panicked => (Panicked, ks)
      | Returned w => (Returned tt, set_wrapped w ks)
      end
  end.

(** [func (ks keySortable) allIndexes(iChan chan<- int)]: the values sent. *)
Definition allIndexes (ks : keySortable) : list Z :=
  iota (Wrapped.Len wr (wrapped ks)).

(** [func (ks keySortable) erroredIndexes(iChan chan<- int)]: the keys of
    [errors] are collected in [erroredIndices]; the second loop is
    [for i := range erroredIndices], which sends the positions
    [0 .. len(erroredIndices)-1] of that slice. *)
Definition erroredIndexes (ks : keySortable) : list Z :=
  let erroredIndices := (map_to_list (errors ks)).*1 in
  iota (Z.of_nat (length erroredIndices)).

(** [func (ks keySortable) memoize(parallelism int, genIndexes func(chan<- int))]:
    every value sent by [genIndexes] is given to [Key]. As for [prime] of
    keysort.go, the calls are run one after the other in the order sent,
    which is what one worker does. *)
Definition memoize (parallelism : Z) (genIndexes : keySortable -> list Z)
  : go keySortable unit :=
  fun ks => each (fun i => Key i ;;; ret tt) (genIndexes ks) ks.

(** [func PrimedKeysort(wrapped Interface, parallelism int) (ks keySortable)] *)
Definition PrimedKeysort (w : W) (parallelism : Z) : outcome keySortable :=
  match Keysort w with
  | Panicked => Panicked
  | Returned ks =>
      match memoize parallelism allIndexes ks with
      | (Returned _, ks') => Returned ks'
      | (Panicked, _) => Panicked
      end
  end.

(** [func (ks keySortable) ClearErrors()]: [delete(ks.errors, k)] for every
    key [k] of the map. *)
Definition ClearErrors : go keySortable unit :=
  fun ks =>
    (Returned tt, set_errors (delete_all (errors ks) (map_to_list (errors ks)).*1) ks).

(** [func (ks keySortable) RetryFailed(parallelism int)] *)
Definition RetryFailed (parallelism : Z) : go keySortable unit :=
  ClearErrors ;;; memoize parallelism erroredIndexes.

(** The adapter as a [sort.Interface]. *)
Definition adapter : Sort.Interface keySortable :=
  {| Sort.Len := Len; Sort.Less := Less; Sort.Swap := Swap |}.

(** Calls a client (or the constructor, for the primer) can make on an
    adapter, and the state after a sequence of them. *)
Inductive call : Type :=
| CallKey (i : Z)
| CallLess (i j : Z)
| CallSwap (i j : Z)
| CallLen
| CallPrimer (parallelism : Z)
| CallClearErrors
| CallRetryFailed (parallelism : Z).

Definition perform (ks : keySortable) (c : call) : keySortable :=
  match c with
  | CallKey i => (Key i ks).2
  | CallLess i j => (Less i j ks).2
  | CallSwap i j => (Swap i j ks).2
  | CallLen => (Len ks).2
  | CallPrimer parallelism => (memoize parallelism allIndexes ks).2
  | CallClearErrors => (ClearErrors ks).2
  | CallRetryFailed parallelism => (RetryFailed parallelism ks).2
  end.

Definition performs (cs : list call) (ks : keySortable) : keySortable :=
  foldl perform ks cs.

(** The calls that are neither [ClearErrors] nor [RetryFailed]. *)
Definition keeps_errors (c : call) : bool :=
  match c with
  | CallClearErrors | CallRetryFailed _ => false
  | _ => true
  end.

Definition kept (ks ks' : keySortable) : Prop :=
  cache_kept (memo ks) (keyCalls ks) (memo ks') (keyCalls ks').

(** In every state the adapter reaches, an identity with a recorded error
    has a memo entry (the value returned with the error). *)
Definition errors_cached (ks : keySortable) : Prop :=
  forall id, is_Some (errors ks !! id) -> is_Some (memo ks !! id).

#[local] Instance aware_kept_preorder : PreOrder kept.
Proof.
  split; [intros ks; apply cache_kept_refl|].
  intros ks1 ks2 ks3. apply cache_kept_trans.
Qed.

Lemma aware_Key_kept i ks : kept ks (Key i ks).2.
Proof.
  unfold Key. destruct (index (swaps ks) i) as [id|]; [|done].
  destruct (memo ks !! id) as [v|] eqn:Hm; [done|].
  simpl. destruct (Wrapped.Key wr (wrapped ks) id) as [[value [err|]]|]; simpl.
  - by apply cache_kept_insert.
  - by apply cache_kept_insert.
  - by apply cache_kept_call.
Qed.

Lemma aware_Less_kept i j ks : kept ks (Less i j ks).2.
Proof.
  unfold Less. apply (bind_preserved kept); [apply aware_Key_kept|]. intros a s.
  apply (bind_preserved kept); [apply aware_Key_kept|]. intros b s'.
  by destruct (Errors s').
Qed.

Lemma aware_Swap_kept i j ks : kept ks (Swap i j ks).2.
Proof.
  unfold Swap. destruct (exchange (swaps ks) i j); [|done].
  simpl. destruct (Wrapped.Swap wr (wrapped ks) i j); apply cache_kept_refl.
Qed.

Lemma aware_memoize_kept parallelism gen ks : kept ks (memoize parallelism gen ks).2.
Proof.
  unfold memoize. apply (each_preserved kept). intros x s.
  apply (bind_preserved kept); [apply aware_Key_kept | done].
Qed.

(** [ClearErrors] leaves the [errors] map empty and nothing else changed. *)
Lemma aware_ClearErrors_eq ks :
  ClearErrors ks = (Returned tt, set_errors ∅ ks).
Proof. unfold ClearErrors. by rewrite delete_all_keys. Qed.

(** [RetryFailed] reads the [errors] map after it has emptied it: nothing is
    sent to the workers, and the call does what [ClearErrors] does. *)
Lemma aware_RetryFailed_eq parallelism ks :
  RetryFailed parallelism ks = (Returned tt, set_errors ∅ ks).
Proof.
  unfold RetryFailed, bind. rewrite aware_ClearErrors_eq.
  unfold memoize, erroredIndexes. simpl. by rewrite map_to_list_empty.
Qed.

Lemma aware_perform_kept ks c : kept ks (perform ks c).
Proof.
  destruct c; cbn [perform].
  - apply aware_Key_kept.
  - apply aware_Less_kept.
  - apply aware_Swap_kept.
  - done.
  - apply aware_memoize_kept.
  - rewrite aware_ClearErrors_eq. apply cache_kept_refl.
  - rewrite aware_RetryFailed_eq. apply cache_kept_refl.
Qed.

Lemma aware_performs_kept cs ks : kept ks (performs cs ks).
Proof. apply (foldl_preserved kept). apply aware_perform_kept. Qed.

(** A cached identity is answered from the memo: no call, no change. *)
Lemma aware_Key_cached i id v ks :
  index (swaps ks) i = Some id -> memo ks !! id = Some v ->
  Key i ks = (Returned v, ks).
Proof. intros Hi Hm. unfold Key. by rewrite Hi, Hm. Qed.

(** [Swap] on the permutation map. *)
Lemma aware_Swap_swaps i j ks :
  swaps (Swap i j ks).2 = default (swaps ks) (exchange (swaps ks) i j).
Proof.
  unfold Swap. destruct (exchange (swaps ks) i j); [|done].
  simpl. by destruct (Wrapped.Swap wr (wrapped ks) i j).
Qed.

Definition rearranged (ks ks' : keySortable) : Prop := swaps ks' ≡ₚ swaps ks.

#[local] Instance aware_rearranged_preorder : PreOrder rearranged.
Proof.
  split.
  - intros ks. unfold rearranged. reflexivity.
  - intros ks1 ks2 ks3 H1 H2. unfold rearranged in *. by rewrite H2.
Qed.

Lemma aware_Key_swaps i ks : swaps (Key i ks).2 = swaps ks.
Proof.
  unfold Key. destruct (index (swaps ks) i) as [id|]; [|done].
  destruct (memo ks !! id); [done|]. simpl.
  by destruct (Wrapped.Key wr (wrapped ks) id) as [[? [?|]]|].
Qed.

Lemma aware_Key_rearranged i ks : rearranged ks (Key i ks).2.
Proof. unfold rearranged. by rewrite aware_Key_swaps. Qed.

Lemma aware_perform_rearranged ks c : rearranged ks (perform ks c).
Proof.
  destruct c; cbn [perform].
  - apply aware_Key_rearranged.
  - unfold Less. apply (bind_preserved rearranged); [apply aware_Key_rearranged|].
    intros a s. apply (bind_preserved rearranged); [apply aware_Key_rearranged|].
    intros b s'. by destruct (Errors s').
  - unfold rearranged. rewrite aware_Swap_swaps.
    destruct (exchange (swaps ks) i j) as [sw|] eqn:Hx; [|done].
    by eapply exchange_Permutation.
  - done.
  - unfold memoize. apply (each_preserved rearranged). intros x s.
    apply (bind_preserved rearranged); [apply aware_Key_rearranged | done].
  - rewrite aware_ClearErrors_eq. unfold rearranged. simpl. reflexivity.
  - rewrite aware_RetryFailed_eq. unfold rearranged. simpl. reflexivity.
Qed.

Lemma aware_performs_rearranged cs ks : rearranged ks (performs cs ks).
Proof. apply (foldl_preserved rearranged). apply aware_perform_rearranged. Qed.

Lemma aware_Keysort_inv w ks :
  Keysort w = Returned ks ->
  wrapped ks = w /\ swaps ks = iota (Wrapped.Len wr w) /\ memo ks = ∅ /\
  errors ks = ∅ /\ keyCalls ks = [].
Proof. unfold Keysort. case_decide; intros ?; simplify_eq. done. Qed.

(** *** The recorded errors *)

Lemma aware_Errors_None ks : Errors ks = None <-> errors ks = ∅.
Proof.
  unfold Errors. case_decide as H.
  - by apply map_size_empty_iff in H.
  - split; [done|]. intros He. by apply map_size_empty_iff in He.
Qed.

(** While neither [ClearErrors] nor [RetryFailed] is called, recorded
    errors stay: [Key] writes to [errors] only for an identity without a
    memo entry, and such an identity has no recorded error. *)
Definition errors_stay (ks ks' : keySortable) : Prop :=
  errors_cached ks -> errors_cached ks' /\ errors ks ⊆ errors ks'.

#[local] Instance aware_errors_stay_preorder : PreOrder errors_stay.
Proof.
  split; [by intros ks ?|].
  intros ks1 ks2 ks3 H1 H2 Hc. destruct (H1 Hc) as [Hc2 Hs2].
  destruct (H2 Hc2) as [Hc3 Hs3]. split; [done | by etrans].
Qed.

Lemma aware_Key_errors_stay i ks : errors_stay ks (Key i ks).2.
Proof.
  intros Hc. unfold Key. destruct (index (swaps ks) i) as [id|]; [|done].
  destruct (memo ks !! id) as [v|] eqn:Hm; [done|].
  assert (He : errors ks !! id = None).
  { destruct (errors ks !! id) eqn:He; [|done].
    destruct (Hc id) as [? ?]; [eauto | congruence]. }
  simpl. destruct (Wrapped.Key wr (wrapped ks) id) as [[value [err|]]|]; simpl.
  - split; [|by apply insert_subseteq]. intros k [e Hk]. simpl in *.
    destruct (decide (id = k)) as [->|Hne].
    + rewrite lookup_insert_eq. eauto.
    + rewrite lookup_insert_ne by done. rewrite lookup_insert_ne in Hk by done.
      apply Hc. eauto.
  - rewrite delete_id by done. split; [|done]. intros k [e Hk]. simpl in *.
    destruct (decide (id = k)) as [->|Hne].
    + rewrite lookup_insert_eq. eauto.
    + rewrite lookup_insert_ne by done. apply Hc. eauto.
  - done.
Qed.

Lemma aware_memoize_errors_stay parallelism gen ks :
  errors_stay ks (memoize parallelism gen ks).2.
Proof.
  unfold memoize. apply (each_preserved errors_stay). intros x s.
  apply (bind_preserved errors_stay); [apply aware_Key_errors_stay | done].
Qed.

Lemma aware_perform_errors_stay ks c :
  keeps_errors c = true -> errors_stay ks (perform ks c).
Proof.
  destruct c; cbn [perform keeps_errors]; try discriminate; intros _.
  - apply aware_Key_errors_stay.
  - unfold Less. apply (bind_preserved errors_stay); [apply aware_Key_errors_stay|].
    intros a s. apply (bind_preserved errors_stay); [apply aware_Key_errors_stay|].
    intros b s'. by destruct (Errors s').
  - unfold Swap. destruct (exchange (swaps ks) i j); [|done]. simpl.
    by destruct (Wrapped.Swap wr (wrapped ks) i j).
  - done.
  - apply aware_memoize_errors_stay.
Qed.


(** Every call keeps [errors_cached]. *)
Lemma aware_perform_errors_cached ks c : errors_cached ks -> errors_cached (perform ks c).
Proof.
  intros Hc. destruct (keeps_errors c) eqn:Hk.
  - by apply aware_perform_errors_stay.
  - destruct c; try discriminate; cbn [perform].
    + rewrite aware_ClearErrors_eq. intros id [e He]. simpl in He.
      by rewrite lookup_empty in He.
    + rewrite aware_RetryFailed_eq. intros id [e He]. simpl in He.
      by rewrite lookup_empty in He.
Qed.

Lemma aware_performs_errors_cached cs ks :
  errors_cached ks -> errors_cached (performs cs ks).
Proof.
  unfold performs. revert ks. induction cs as [|c cs IH]; intros ks Hc; simpl; [done|].
  apply IH. by apply aware_perform_errors_cached.
Qed.

Lemma aware_Keysort_errors_cached w ks : Keysort w = Returned ks -> errors_cached ks.
Proof.
  intros (_ & _ & _ & He & _)%aware_Keysort_inv id [e Hid].
  rewrite He, lookup_empty in Hid. done.
Qed.


(** [Key] returns for a valid position when the user key function does. *)
Lemma aware_Key_returns i ks :
  in_range (length (swaps ks)) i ->
  (forall w id, Wrapped.Key wr w id <> Panicked) ->
  exists v, (Key i ks).1 = Returned v.
Proof.
  intros [id Hi]%index_in_range Hu. unfold Key. rewrite Hi.
  destruct (memo ks !! id) as [v|]; [by eexists|]. simpl.
  specialize (Hu (wrapped ks) id).
  destruct (Wrapped.Key wr (wrapped ks) id) as [[value err]|]; [by eexists | done].
Qed.

Lemma aware_Less_returns i j ks :
  in_range (length (swaps ks)) i -> in_range (length (swaps ks)) j ->
  (forall w id, Wrapped.Key wr w id <> Panicked) ->
  exists b, (Less i j ks).1 = Returned b.
Proof.
  intros Hi Hj Hu. unfold Less, bind.
  destruct (aware_Key_returns i ks Hi Hu) as [a Ha].
  pose proof (aware_Key_swaps i ks) as Hs1.
  destruct (Key i ks) as [r1 s1]; simpl in *. subst r1.
  rewrite <- Hs1 in Hj.
  destruct (aware_Key_returns j s1 Hj Hu) as [b Hb].
  destruct (Key j s1) as [r2 s2]; simpl in *. subst r2.
  destruct (Errors s2); by eexists.
Qed.

End Adapter.
Arguments keySortable : clear implicits.
End Aware.

(** ** The containers of the package's tests *)

Module Specimen.

(** [type ExampleToSort struct { NotKey, IntKey int; StringKey string }] *)
Record ExampleToSort : Type := {
  NotKey : Z;
  IntKey : Z;
  StringKey : string
}.

(** [type SpecimenSliceSorter []ExampleToSort] *)
Definition SpecimenSliceSorter : Type := list ExampleToSort.

Definition Len (s : SpecimenSliceSorter) : Z := Z.of_nat (length s).

Definition Swap (s : SpecimenSliceSorter) (i j : Z) : outcome SpecimenSliceSorter :=
  match exchange s i j with
  | Some s' => Returned s'
  | None => Panicked
  end.

Definition At (s : SpecimenSliceSorter) (i : Z) : outcome ExampleToSort :=
  match index s i with
  | Some e => Returned e
  | None => Panicked
  end.

(** The first two elements made by [GenSpecimen], which are always out of
    order; the others are random. *)
Definition GenSpecimen2 : SpecimenSliceSorter :=
  [ {| NotKey := 0; IntKey := 1; StringKey := "bbb" |};
    {| NotKey := 1; IntKey := 0; StringKey := "aaa" |} ].

End Specimen.

(** [type ByIntKey struct {SpecimenSliceSorter}] *)
Module ByIntKey.
Import Specimen.

(** [func (s ByIntKey) Less(i, j int) bool]: the comparator that is not
    memoized. *)
Definition Less (i j : Z) : go SpecimenSliceSorter bool := fun s =>
  match At s i with
  | Panicked => (Panicked, s)
  | Returned a =>
      match At s j with
      | Panicked => (Panicked, s)
      | Returned b => (Returned (IntKey a <? IntKey b), s)
      end
  end.

(** [func (s ByIntKey) LessVal(i, j interface{}) bool] *)
Definition LessVal (i j : Z) : bool := i <? j.

(** [func (s ByIntKey) Key(i int) (interface{}, error)]: reads the slice as
    it is when the call is made. *)
Definition Key (s : SpecimenSliceSorter) (i : Z) : outcome (Z * option string) :=
  match At s i with
  | Panicked => Panicked
  | Returned e => Returned (IntKey e, None)
  end.

(** [ByIntKey] as a [keysort.Interface] ... *)
Definition wrapped : Wrapped.Interface SpecimenSliceSorter Z string :=
  {| Wrapped.LessVal := fun _ => LessVal;
     Wrapped.Key := Key;
     Wrapped.Swap := Swap;
     Wrapped.Len := Len |}.

(** ... and as a [sort.Interface]. *)
Definition direct : Sort.Interface SpecimenSliceSorter :=
  {| Sort.Len := fun s => (Returned (Len s), s);
     Sort.Less := Less;
     Sort.Swap := fun i j s =>
       match Swap s i j with
       | Returned s' => (Returned tt, s')
       | Panicked => (Panicked, s)
       end |}.

(** A slice with the given [IntKey]s. *)
Definition withKeys (keys : list Z) : SpecimenSliceSorter :=
  (fun k => {| NotKey := 0; IntKey := k; StringKey := "" |}) <$> keys.

End ByIntKey.

(** A container for the error scenario: [ByIntKey], but [Key] fails for the
    index 3 and returns the zero value with the error. *)
Module FailsAt3.
Import Specimen.

Definition Key (s : SpecimenSliceSorter) (i : Z) : outcome (Z * option string) :=
  if decide (i = 3) then Returned (0, Some "no key for 3") else ByIntKey.Key s i.

Definition wrapped : Wrapped.Interface SpecimenSliceSorter Z string :=
  {| Wrapped.LessVal := fun _ => ByIntKey.LessVal;
     Wrapped.Key := Key;
     Wrapped.Swap := Swap;
     Wrapped.Len := Len |}.

(** The six elements of the README's example. *)
Definition six : SpecimenSliceSorter := ByIntKey.withKeys [13; 11; 9; 12; 8; 10].

End FailsAt3.

(** ** Sort algorithms used as inputs *)

Module Algorithms.
Import Sort.

(** Insertion sort, as in package [sort]: the element at [j] goes down
    while it is less than its left neighbour. *)
Fixpoint sink (j : nat) (rest : script) : script :=
  match j with
  | O => rest
  | S j' =>
      DoLess (Z.of_nat j) (Z.of_nat j')
        (fun less => if less then DoSwap (Z.of_nat j) (Z.of_nat j') (sink j' rest)
                     else rest)
  end.

Fixpoint insertionFrom (i count : nat) : script :=
  match count with
  | O => Halt
  | S count' => sink i (insertionFrom (S i) count')
  end.

Definition insertionSort : algorithm :=
  fun n => insertionFrom 1 (Z.to_nat n - 1)%nat.

(** Reverse the range first (as a pattern-defeating sort does when it takes
    the input for a descending run), then insertion sort. *)
Fixpoint reverseRange (lo hi : Z) (steps : nat) (rest : script) : script :=
  match steps with
  | O => rest
  | S steps' => DoSwap lo hi (reverseRange (lo + 1) (hi - 1) steps' rest)
  end.

Definition reverseThenInsertion : algorithm :=
  fun n => reverseRange 0 (n - 1) (Z.to_nat (n / 2)) (insertionSort n).

End Algorithms.

(** ** Sorting through a primed adapter

    When every key is in the memo and belongs to the element that sits at
    the position (which is what [PrimedKeysort] sets up, since it resolves
    all keys before any swap), the adapter and the container's own
    comparator answer alike, whatever the sort algorithm does. *)

Module Primed.
Import Specimen.

(** The adapter state [ks] agrees with the container [s]: same contents, and
    the identity in each slot has in the memo the key of the element at that
    position. *)
Definition synced (ks : Plain.keySortable SpecimenSliceSorter Z)
    (s : SpecimenSliceSorter) : Prop :=
  Plain.wrapped ks = s /\
  length (Plain.swaps ks) = length s /\
  forall p id, index (Plain.swaps ks) p = Some id ->
    exists e, index s p = Some e /\ Plain.memo ks !! id = Some (IntKey e).

Lemma synced_Key ks s i :
  synced ks s ->
  match index s i with
  | Some e => Plain.Key ByIntKey.wrapped i ks = (Returned (IntKey e, None), ks)
  | None => Plain.Key ByIntKey.wrapped i ks = (Panicked, ks)
  end.
Proof.
  intros (Hw & Hlen & Hm). unfold Plain.Key.
  destruct (index (Plain.swaps ks) i) as [id|] eqn:Hi.
  - destruct (Hm _ _ Hi) as (e & He & Hid). by rewrite He, Hid.
  - destruct (index s i) as [e|] eqn:He; [|done].
    apply index_lt in He. rewrite <- Hlen in He.
    apply index_in_range in He as [? ?]. congruence.
Qed.

Lemma synced_Less ks s i j :
  synced ks s ->
  (Sort.Less (Plain.adapter ByIntKey.wrapped) i j ks).1
    = (Sort.Less ByIntKey.direct i j s).1 /\
  (Sort.Less (Plain.adapter ByIntKey.wrapped) i j ks).2 = ks /\
  (Sort.Less ByIntKey.direct i j s).2 = s.
Proof.
  intros Hs. pose proof (synced_Key ks s i Hs) as Hi.
  pose proof (synced_Key ks s j Hs) as Hj.
  cbn [Sort.Less Plain.adapter ByIntKey.direct].
  unfold Plain.Less, ByIntKey.Less, At, bind.
  destruct (index s i) as [a|]; rewrite Hi; [|done].
  destruct (index s j) as [b|]; rewrite Hj; done.
Qed.

Lemma synced_Swap ks s i j :
  synced ks s ->
  (Sort.Swap (Plain.adapter ByIntKey.wrapped) i j ks).1
    = (Sort.Swap ByIntKey.direct i j s).1 /\
  synced (Sort.Swap (Plain.adapter ByIntKey.wrapped) i j ks).2
         (Sort.Swap ByIntKey.direct i j s).2.
Proof.
  intros (Hw & Hlen & Hm). cbn [Sort.Swap Plain.adapter ByIntKey.direct].
  unfold Plain.Swap. simpl. unfold Swap. rewrite Hw.
  destruct (exchange (Plain.swaps ks) i j) as [sw|] eqn:Hx.
  - destruct (exchange_inv _ _ _ _ Hx) as (a & b & Ha & Hb & _).
    apply index_lt in Ha, Hb. rewrite Hlen in Ha, Hb.
    destruct (exchange_in_range s i j Ha Hb) as [s' Hs']. rewrite Hs'. simpl.
    split; [done|]. split; [done|]. split.
    + simpl. rewrite (exchange_length _ _ _ _ Hx), (exchange_length _ _ _ _ Hs'). done.
    + intros p id. simpl.
      rewrite (exchange_index _ _ _ _ _ Hx), (exchange_index _ _ _ _ _ Hs').
      repeat case_decide; apply Hm.
  - destruct (exchange s i j) as [s'|] eqn:Hs'.
    + destruct (exchange_inv _ _ _ _ Hs') as (a & b & Ha & Hb & _).
      apply index_lt in Ha, Hb. rewrite <- Hlen in Ha, Hb.
      destruct (exchange_in_range _ i j Ha Hb) as [? ?]. congruence.
    + simpl. done.
Qed.

Lemma synced_follow p ks s :
  synced ks s ->
  (Sort.follow (Plain.adapter ByIntKey.wrapped) p ks).1
    = (Sort.follow ByIntKey.direct p s).1 /\
  synced (Sort.follow (Plain.adapter ByIntKey.wrapped) p ks).2
         (Sort.follow ByIntKey.direct p s).2.
Proof.
  revert ks s. induction p as [|i j next IH|i j next IH]; intros ks s Hs.
  - done.
  - destruct (synced_Swap ks s i j Hs) as [Hr Hs']. cbn [Sort.follow]. unfold bind.
    destruct (Sort.Swap (Plain.adapter ByIntKey.wrapped) i j ks) as [r1 ks1].
    destruct (Sort.Swap ByIntKey.direct i j s) as [r2 s1]. simpl in Hr, Hs'. subst r2.
    destruct r1; [by apply IH | done].
  - destruct (synced_Less ks s i j Hs) as (Hr & Hk & Hd). cbn [Sort.follow]. unfold bind.
    destruct (Sort.Less (Plain.adapter ByIntKey.wrapped) i j ks) as [r1 ks1].
    destruct (Sort.Less ByIntKey.direct i j s) as [r2 s1]. simpl in Hr, Hk, Hd.
    subst r2 ks1 s1.
    destruct r1; [by apply IH | done].
Qed.

(** The state while the primer runs: nothing swapped yet, and every memo
    entry is the key of the element at that index. *)
Definition priming (s : SpecimenSliceSorter) (seen : list Z)
    (ks : Plain.keySortable SpecimenSliceSorter Z) : Prop :=
  Plain.wrapped ks = s /\
  Plain.swaps ks = iota (Len s) /\
  (forall id v, Plain.memo ks !! id = Some v ->
     exists e, index s id = Some e /\ v = IntKey e) /\
  (forall id, id ∈ seen -> is_Some (Plain.memo ks !! id)).

Lemma priming_Key s seen ks i :
  priming s seen ks -> in_range (length s) i ->
  exists v ks', Plain.Key ByIntKey.wrapped i ks = (Returned v, ks') /\
                priming s (i :: seen) ks'.
Proof.
  intros (Hw & Hsw & Hm & Hd) Hi. unfold Plain.Key. rewrite Hsw, iota_index.
  unfold Len. rewrite decide_True by (unfold in_range in Hi; lia).
  destruct (Plain.memo ks !! i) as [v|] eqn:Hv.
  - eexists _, _. split; [done|]. split; [done|]. split; [done|]. split; [done|].
    intros id [->|?]%elem_of_cons; eauto.
  - simpl. rewrite Hw. unfold ByIntKey.Key, At.
    apply index_in_range in Hi as [e He]. rewrite He.
    eexists _, _. split; [done|]. split; [done|]. split; [done|]. split.
    + intros id v. simpl. destruct (decide (i = id)) as [->|Hne].
      * rewrite lookup_insert_eq. intros [= <-]. eauto.
      * rewrite lookup_insert_ne by done. apply Hm.
    + intros id Hid. simpl. destruct (decide (i = id)) as [->|Hne].
      * rewrite lookup_insert_eq. eauto.
      * rewrite lookup_insert_ne by done. apply Hd.
        apply elem_of_cons in Hid as [?|?]; [congruence | done].
Qed.

Lemma priming_each s l seen ks :
  priming s seen ks -> Forall (in_range (length s)) l ->
  exists ks', each (fun val => Plain.Key ByIntKey.wrapped val ;;; ret tt) l ks
                = (Returned tt, ks') /\
              priming s (l ++ seen) ks'.
Proof.
  revert seen ks. induction l as [|i l IH]; intros seen ks Hp Hl.
  - by exists ks.
  - apply Forall_cons in Hl as [Hi Hl].
    destruct (priming_Key s seen ks i Hp Hi) as (v & ks1 & Hk & Hp').
    destruct (IH (i :: seen) ks1 Hp' Hl) as (ks' & Hrun & Hp'').
    exists ks'. split.
    + cbn [each]. unfold bind at 1 2. rewrite Hk. exact Hrun.
    + destruct Hp'' as (? & ? & ? & Hd). split; [done|]. split; [done|]. split; [done|].
      intros id Hid. apply Hd. rewrite elem_of_app, elem_of_cons.
      cbn [app] in Hid. rewrite elem_of_cons, elem_of_app in Hid. tauto.
Qed.

Lemma PrimedKeysort_synced s parallelism :
  exists ks, Plain.PrimedKeysort ByIntKey.wrapped s parallelism = Returned ks /\ synced ks s.
Proof.
  unfold Plain.PrimedKeysort, Plain.Keysort. cbn [Wrapped.Len ByIntKey.wrapped].
  rewrite decide_False by (unfold Len; lia).
  set (ks0 := {| Plain.wrapped := s; Plain.swaps := iota (Len s);
                 Plain.memo := ∅; Plain.keyCalls := [] |}).
  assert (Hp0 : priming s [] ks0).
  { split; [done|]. split; [done|]. split.
    - intros id v. simpl. by rewrite lookup_empty.
    - intros id Hid. by apply elem_of_nil in Hid. }
  assert (Hl : Forall (in_range (length s)) (iota (Len s))).
  { apply Forall_forall. intros i [n [-> Hn]]%list_elem_of_fmap.
    apply elem_of_seq in Hn. unfold in_range, Len in *. lia. }
  destruct (priming_each s _ [] ks0 Hp0 Hl) as (ks & Hrun & Hw & Hsw & Hm & Hd).
  unfold Plain.prime. cbn [Plain.wrapped ks0 ByIntKey.wrapped Wrapped.Len].
  rewrite Hrun.
  exists ks. split; [done|]. split; [done|]. split.
  - rewrite Hsw, iota_length. unfold Len. lia.
  - intros p id. rewrite Hsw, iota_index. case_decide as Hp; [|done].
    intros [= <-].
    destruct (Hd p) as [v Hv].
    { rewrite app_nil_r. apply list_elem_of_fmap. exists (Z.to_nat p).
      split; [lia|]. apply elem_of_seq. unfold Len in *. lia. }
    destruct (Hm _ _ Hv) as (e & He & ->). eauto.
Qed.

End Primed.

(** For the containers of the tests and every sort algorithm: sorting through
    the adapter built by [PrimedKeysort] ends as sorting the container with
    its own comparator does, with the same elements in the same order. *)
Lemma primed_sort_matches_direct (alg : Sort.algorithm)
    (s : Specimen.SpecimenSliceSorter) (parallelism : Z) :
  exists ks,
    Plain.PrimedKeysort ByIntKey.wrapped s parallelism = Returned ks /\
    let through := Sort.Sort alg (Plain.adapter ByIntKey.wrapped) ks in
    let directly := Sort.Sort alg ByIntKey.direct s in
    through.1 = directly.1 /\ Plain.wrapped through.2 = directly.2.
Proof.
  destruct (Primed.PrimedKeysort_synced s parallelism) as (ks & Hk & Hs).
  exists ks. split; [done|]. unfold Sort.Sort. simpl.
  destruct Hs as (Hw & Hrest). rewrite Hw.
  destruct (Primed.synced_follow (alg (Specimen.Len s)) ks s (conj Hw Hrest))
    as (Hr & Hw' & _).
  done.
Qed.

(** * The properties of the specification *)

(** ** Permutation map *)

(** C5. After any sequence of [Swap] calls on an adapter built by [Keysort]
    over a container of [n] elements, in the plain and in the error-aware
    version, [swaps] has length [n] and is a bijection on [[0, n)]: every
    slot holds an identity of [[0, n)], no identity is in two slots, and
    every identity of [[0, n)] is in a slot. (Calls with an index out of
    range are allowed too: they panic and leave [swaps] as it was.) *)
Theorem swaps_bijection_after_swaps {W K E} (wr : Wrapped.Interface W K E) (w : W)
    (pks : Plain.keySortable W K) (aks : Aware.keySortable W K E)
    (pairs : list (Z * Z)) :
  Plain.Keysort wr w = Returned pks ->
  Aware.Keysort wr w = Returned aks ->
  let n := Z.to_nat (Wrapped.Len wr w) in
  let pks' := Plain.performs wr ((fun p => Plain.CallSwap p.1 p.2) <$> pairs) pks in
  let aks' := Aware.performs wr ((fun p => Aware.CallSwap p.1 p.2) <$> pairs) aks in
  (length (Plain.swaps pks') = n /\ bijection (Plain.swaps pks')) /\
  (length (Aware.swaps aks') = n /\ bijection (Aware.swaps aks')).
Proof.
  intros (_ & Hp & _)%Plain.plain_Keysort_inv (_ & Ha & _)%Aware.aware_Keysort_inv.
  intros n pks' aks'.
  assert (HP : Plain.swaps pks' ≡ₚ iota (Wrapped.Len wr w)).
  { rewrite <- Hp. apply Plain.plain_performs_rearranged. }
  assert (HA : Aware.swaps aks' ≡ₚ iota (Wrapped.Len wr w)).
  { rewrite <- Ha. apply Aware.aware_performs_rearranged. }
  split; split.
  - by rewrite HP, iota_length.
  - eapply bijection_Permutation; eauto using iota_bijection.
  - by rewrite HA, iota_length.
  - eapply bijection_Permutation; eauto using iota_bijection.
Qed.

Lemma swaps_bijection_after_swaps_witness :
  let pks' := Plain.performs ByIntKey.wrapped
                [Plain.CallSwap 0 1; Plain.CallSwap 1 1; Plain.CallSwap 1 0; Plain.CallSwap 0 1]
                {| Plain.wrapped := Specimen.GenSpecimen2; Plain.swaps := [0; 1];
                   Plain.memo := ∅; Plain.keyCalls := [] |} in
  length (Plain.swaps pks') = 2%nat /\ bijection (Plain.swaps pks').
Proof.
  exact (proj1 (swaps_bijection_after_swaps ByIntKey.wrapped Specimen.GenSpecimen2
    {| Plain.wrapped := Specimen.GenSpecimen2; Plain.swaps := [0; 1];
       Plain.memo := ∅; Plain.keyCalls := [] |}
    {| Aware.wrapped := Specimen.GenSpecimen2; Aware.swaps := [0; 1];
       Aware.memo := ∅; Aware.errors := ∅; Aware.keyCalls := [] |}
    [(0, 1); (1, 1); (1, 0); (0, 1)] eq_refl eq_refl)).
Defined.

(** C10. For positions [i] and [j] in range, in both versions: swapping
    twice restores the permutation map, swapping a position with itself
    leaves it unchanged, and [Swap(i, j)] and [Swap(j, i)] leave the same
    permutation map. *)
Theorem Swap_involutive_and_symmetric {W K E} (wr : Wrapped.Interface W K E)
    (pks : Plain.keySortable W K) (aks : Aware.keySortable W K E) (i j : Z) :
  in_range (length (Plain.swaps pks)) i -> in_range (length (Plain.swaps pks)) j ->
  in_range (length (Aware.swaps aks)) i -> in_range (length (Aware.swaps aks)) j ->
  (Plain.swaps (Plain.Swap wr i j (Plain.Swap wr i j pks).2).2 = Plain.swaps pks /\
   Plain.swaps (Plain.Swap wr i i pks).2 = Plain.swaps pks /\
   Plain.swaps (Plain.Swap wr i j pks).2 = Plain.swaps (Plain.Swap wr j i pks).2) /\
  (Aware.swaps (Aware.Swap wr i j (Aware.Swap wr i j aks).2).2 = Aware.swaps aks /\
   Aware.swaps (Aware.Swap wr i i aks).2 = Aware.swaps aks /\
   Aware.swaps (Aware.Swap wr i j aks).2 = Aware.swaps (Aware.Swap wr j i aks).2).
Proof.
  intros Hpi Hpj Hai Haj.
  destruct (exchange_in_range _ _ _ Hpi Hpj) as [sp Hsp].
  destruct (exchange_in_range _ _ _ Hai Haj) as [sa Hsa].
  rewrite !Plain.plain_Swap_swaps, !Aware.aware_Swap_swaps.
  rewrite Hsp, Hsa. simpl.
  rewrite (exchange_twice _ _ _ _ Hsp), (exchange_twice _ _ _ _ Hsa).
  rewrite (exchange_same _ _ Hpi), (exchange_same _ _ Hai).
  rewrite <- (exchange_comm _ i j), Hsp.
  rewrite <- (exchange_comm _ i j), Hsa. done.
Qed.

Lemma Swap_involutive_and_symmetric_witness :
  let pks := {| Plain.wrapped := Specimen.GenSpecimen2; Plain.swaps := [0; 1];
                Plain.memo := ∅; Plain.keyCalls := [] |} in
  Plain.swaps (Plain.Swap ByIntKey.wrapped 0 1 (Plain.Swap ByIntKey.wrapped 0 1 pks).2).2
    = [0; 1] /\
  Plain.swaps (Plain.Swap ByIntKey.wrapped 0 0 pks).2 = [0; 1] /\
  Plain.swaps (Plain.Swap ByIntKey.wrapped 0 1 pks).2
    = Plain.swaps (Plain.Swap ByIntKey.wrapped 1 0 pks).2.
Proof.
  refine (proj1 (Swap_involutive_and_symmetric ByIntKey.wrapped
    {| Plain.wrapped := Specimen.GenSpecimen2; Plain.swaps := [0; 1];
       Plain.memo := ∅; Plain.keyCalls := [] |}
    {| Aware.wrapped := Specimen.GenSpecimen2; Aware.swaps := [0; 1];
       Aware.memo := ∅; Aware.errors := ∅; Aware.keyCalls := [] |}
    0 1 _ _ _ _)); unfold in_range; simpl; lia.
Defined.

(** ** Memoization *)

(** C3. Sequential execution, both versions: once the memo holds the key of
    an identity, whatever calls follow ([Key], [Less], [Swap], [Len], the
    primer, and in the error-aware version also [ClearErrors] and
    [RetryFailed]), the entry is still there with the same key, the user key
    function was not called for that identity again, and [Key] for a
    position holding that identity returns the cached key and changes
    nothing. *)
Theorem cached_key_not_recomputed {W K E} (wr : Wrapped.Interface W K E)
    (pks : Plain.keySortable W K) (aks : Aware.keySortable W K E)
    (id : Z) (pv av : K) (pcs : list Plain.call) (acs : list Aware.call) :
  Plain.memo pks !! id = Some pv ->
  Aware.memo aks !! id = Some av ->
  let pks' := Plain.performs wr pcs pks in
  let aks' := Aware.performs wr acs aks in
  (Plain.memo pks' !! id = Some pv /\
   (exists extra, Plain.keyCalls pks' = extra ++ Plain.keyCalls pks /\ id ∉ extra) /\
   (forall i, index (Plain.swaps pks') i = Some id ->
              Plain.Key wr i pks' = (Returned (pv, None), pks'))) /\
  (Aware.memo aks' !! id = Some av /\
   (exists extra, Aware.keyCalls aks' = extra ++ Aware.keyCalls aks /\ id ∉ extra) /\
   (forall i, index (Aware.swaps aks') i = Some id ->
              Aware.Key wr i aks' = (Returned av, aks'))).
Proof.
  intros Hp Ha pks' aks'.
  destruct (cache_kept_cached _ _ _ _ _ _ (Plain.plain_performs_kept wr pcs pks) Hp)
    as [Hp' Hpc].
  destruct (cache_kept_cached _ _ _ _ _ _ (Aware.aware_performs_kept wr acs aks) Ha)
    as [Ha' Hac].
  split; (split; [done | split; [done|]]); intros i Hi.
  - by apply Plain.plain_Key_cached with id.
  - by apply Aware.aware_Key_cached with id.
Qed.

Lemma cached_key_not_recomputed_witness :
  let pks := {| Plain.wrapped := Specimen.GenSpecimen2; Plain.swaps := [0; 1];
                Plain.memo := {[ 0 := 1 ]}; Plain.keyCalls := [0] |} in
  let pks' := Plain.performs ByIntKey.wrapped
                [Plain.CallLess 0 1; Plain.CallSwap 0 1; Plain.CallLess 1 0;
                 Plain.CallPrime 1; Plain.CallKey 1] pks in
  Plain.memo pks' !! 0 = Some 1 /\
  (exists extra, Plain.keyCalls pks' = extra ++ [0] /\ 0 ∉ extra) /\
  (forall i, index (Plain.swaps pks') i = Some 0 ->
             Plain.Key ByIntKey.wrapped i pks' = (Returned (1, None), pks')).
Proof.
  refine (proj1 (cached_key_not_recomputed ByIntKey.wrapped
    {| Plain.wrapped := Specimen.GenSpecimen2; Plain.swaps := [0; 1];
       Plain.memo := {[ 0 := 1 ]}; Plain.keyCalls := [0] |}
    {| Aware.wrapped := Specimen.GenSpecimen2; Aware.swaps := [0; 1];
       Aware.memo := {[ 0 := 1 ]}; Aware.errors := ∅; Aware.keyCalls := [0] |}
    0 1 1
    [Plain.CallLess 0 1; Plain.CallSwap 0 1; Plain.CallLess 1 0;
     Plain.CallPrime 1; Plain.CallKey 1]
    [Aware.CallLess 0 1; Aware.CallRetryFailed 1] _ _)); reflexivity.
Defined.

(** C7. Error-aware version: an entry of the memo, whatever its value (the
    value cached with an error included), is never removed or replaced by
    [Key], [Less], [Swap], [Len], [ClearErrors], [RetryFailed] or the
    primer; the user key function is not called again for its identity;
    [Key] for a position holding the identity returns the entry; a primer
    pass, whatever indexes it is given, finds the entry and does not call
    the user key function for the identity; and [RetryFailed] returns with
    the memo and the call log as they were. *)
Theorem memo_entry_never_replaced {W K E} (wr : Wrapped.Interface W K E)
    (ks : Aware.keySortable W K E) (id : Z) (v : K) (cs : list Aware.call) :
  Aware.memo ks !! id = Some v ->
  let ks' := Aware.performs wr cs ks in
  Aware.memo ks' !! id = Some v /\
  (exists extra, Aware.keyCalls ks' = extra ++ Aware.keyCalls ks /\ id ∉ extra) /\
  (forall i, index (Aware.swaps ks') i = Some id ->
             Aware.Key wr i ks' = (Returned v, ks')) /\
  (forall parallelism genIndexes,
     let r := Aware.memoize wr parallelism genIndexes ks' in
     Aware.memo r.2 !! id = Some v /\
     exists extra, Aware.keyCalls r.2 = extra ++ Aware.keyCalls ks' /\ id ∉ extra) /\
  (forall parallelism,
     let r := Aware.RetryFailed wr parallelism ks' in
     r.1 = Returned tt /\ Aware.memo r.2 = Aware.memo ks' /\
     Aware.keyCalls r.2 = Aware.keyCalls ks' /\ Aware.errors r.2 = ∅).
Proof.
  intros Hm ks'.
  destruct (cache_kept_cached _ _ _ _ _ _ (Aware.aware_performs_kept wr cs ks) Hm)
    as [Hm' Hc].
  split; [done|]. split; [done|]. split; [|split].
  - intros i Hi. by apply Aware.aware_Key_cached with id.
  - intros parallelism genIndexes r.
    exact (cache_kept_cached _ _ _ _ _ _
             (Aware.aware_memoize_kept wr parallelism genIndexes ks') Hm').
  - intros parallelism. rewrite Aware.aware_RetryFailed_eq. done.
Qed.

Lemma memo_entry_never_replaced_witness :
  let ks := {| Aware.wrapped := FailsAt3.six; Aware.swaps := [0; 1; 2; 3; 4; 5];
               Aware.memo := {[ 3 := 0 ]}; Aware.errors := {[ 3 := "no key for 3"%string ]};
               Aware.keyCalls := [3] |} in
  let ks' := Aware.performs FailsAt3.wrapped
               [Aware.CallRetryFailed 1; Aware.CallKey 3; Aware.CallPrimer 2] ks in
  Aware.memo ks' !! 3 = Some 0 /\
  (exists extra, Aware.keyCalls ks' = extra ++ [3] /\ 3 ∉ extra) /\
  (forall i, index (Aware.swaps ks') i = Some 3 ->
             Aware.Key FailsAt3.wrapped i ks' = (Returned 0, ks')) /\
  (forall parallelism genIndexes,
     let r := Aware.memoize FailsAt3.wrapped parallelism genIndexes ks' in
     Aware.memo r.2 !! 3 = Some 0 /\
     exists extra, Aware.keyCalls r.2 = extra ++ Aware.keyCalls ks' /\ 3 ∉ extra) /\
  (forall parallelism,
     let r := Aware.RetryFailed FailsAt3.wrapped parallelism ks' in
     r.1 = Returned tt /\ Aware.memo r.2 = Aware.memo ks' /\
     Aware.keyCalls r.2 = Aware.keyCalls ks' /\ Aware.errors r.2 = ∅).
Proof.
  refine (memo_entry_never_replaced FailsAt3.wrapped
    {| Aware.wrapped := FailsAt3.six; Aware.swaps := [0; 1; 2; 3; 4; 5];
       Aware.memo := {[ 3 := 0 ]}; Aware.errors := {[ 3 := "no key for 3"%string ]};
       Aware.keyCalls := [3] |}
    3 0 [Aware.CallRetryFailed 1; Aware.CallKey 3; Aware.CallPrimer 2] _).
  reflexivity.
Defined.

(** ** Errors *)

(** C8. [ClearErrors] returns, leaves no recorded error, and leaves the
    memo, the permutation map, the wrapped container and the log of key
    calls as they were. *)
Theorem ClearErrors_only_clears_errors {W K E} (ks : Aware.keySortable W K E) :
  (Aware.ClearErrors ks).1 = Returned tt /\
  Aware.errors (Aware.ClearErrors ks).2 = ∅ /\
  (forall id, Aware.errors (Aware.ClearErrors ks).2 !! id = None) /\
  Aware.memo (Aware.ClearErrors ks).2 = Aware.memo ks /\
  Aware.swaps (Aware.ClearErrors ks).2 = Aware.swaps ks /\
  Aware.wrapped (Aware.ClearErrors ks).2 = Aware.wrapped ks /\
  Aware.keyCalls (Aware.ClearErrors ks).2 = Aware.keyCalls ks.
Proof.
  rewrite Aware.aware_ClearErrors_eq. simpl.
  repeat split; intros; apply lookup_empty.
Qed.

(** C9. [Errors] is nil exactly when no identity has a recorded error;
    otherwise it is a [PrimingError] whose map is the [errors] map, and every
    string its [Error] method can return is the line
    "Problem pre-computing Key functions.", a newline, the entries
    "<identity>: <message>" of a list that holds each failing identity once,
    with its error, and nothing else, joined by a tab, a percent-s and a
    newline, and a final newline. *)
Theorem Errors_lists_recorded_errors {W K E} (message : E -> string)
    (ks : Aware.keySortable W K E) :
  let newline := String (Ascii.ascii_of_nat 10) EmptyString in
  let tab := String (Ascii.ascii_of_nat 9) EmptyString in
  (Aware.Errors ks = None <-> forall id, Aware.errors ks !! id = None) /\
  (forall pe, Aware.Errors ks = Some pe ->
     PrimingError.Errors pe = Aware.errors ks /\
     (exists text, PrimingError.Error message pe text) /\
     (forall text, PrimingError.Error message pe text ->
        exists visited,
          NoDup visited.*1 /\
          (forall id e, (id, e) ∈ visited <-> Aware.errors ks !! id = Some e) /\
          text =
            "Problem pre-computing Key functions." +:+ newline +:+
            String.concat (tab +:+ "%s" +:+ newline)
              ((fun p => pretty p.1 +:+ ": " +:+ message p.2) <$> visited) +:+
            newline)).
Proof.
  intros newline tab. split.
  - rewrite Aware.aware_Errors_None. split.
    + intros -> id. apply lookup_empty.
    + intros H. by apply map_empty.
  - intros pe. unfold Aware.Errors. case_decide; [done|]. intros [= <-]. simpl.
    split; [done|]. split.
    + eexists. by apply (PrimingError.Error_visit message _ (map_to_list (Aware.errors ks))).
    + intros text [visited Hv]. simpl in Hv. exists visited. split; [|split].
      * rewrite Hv. apply NoDup_fst_map_to_list.
      * intros id e. rewrite Hv. apply elem_of_map_to_list.
      * reflexivity.
Qed.

(** The string for the error scenario; [strings.Join] is given only one
    entry here, so its separator does not show. *)
Example PrimingError_Error_scenario :
  PrimingError.Error id {| PrimingError.Errors := {[ 3 := "no key for 3"%string ]} |}
    ("Problem pre-computing Key functions." +:+ PrimingError.newline +:+
     "3: no key for 3" +:+ PrimingError.newline).
Proof.
  apply (PrimingError.Error_visit id _ [(3, "no key for 3"%string)]).
  simpl. by rewrite map_to_list_singleton.
Qed.

(** C1. [RetryFailed] on the error scenario (six elements, [Key] fails for
    identity 3, adapter primed with one worker): before the call identity 3
    holds the only recorded error; the call returns with no recorded error,
    the same memo and the same six key calls, so the user key function was
    not called for identity 3 again. *)
Theorem RetryFailed_calls_no_key_function :
  exists ks,
    Aware.PrimedKeysort FailsAt3.wrapped FailsAt3.six 1 = Returned ks /\
    Aware.errors ks = {[ 3 := "no key for 3"%string ]} /\
    Aware.keyCalls ks = [5; 4; 3; 2; 1; 0] /\
    let r := Aware.RetryFailed FailsAt3.wrapped 1 ks in
    r.1 = Returned tt /\
    Aware.errors r.2 = ∅ /\
    Aware.keyCalls r.2 = [5; 4; 3; 2; 1; 0] /\
    Aware.memo r.2 = Aware.memo ks /\
    Aware.memo r.2 !! 3 = Some 0.
Proof.
  eexists. split; [vm_compute; reflexivity|]. rewrite Aware.aware_RetryFailed_eq.
  repeat split; vm_compute; reflexivity.
Qed.

(** ** Indirection through the permutation map *)

(** [Keysort] starts from the identity: slot [i] holds [i]. *)
Lemma Keysort_identity {W K E} (wr : Wrapped.Interface W K E) (w : W)
    (ks : Plain.keySortable W K) (i : Z) :
  Plain.Keysort wr w = Returned ks ->
  0 <= i < Wrapped.Len wr w -> index (Plain.swaps ks) i = Some i.
Proof.
  intros (_ & -> & _)%Plain.plain_Keysort_inv Hi. rewrite iota_index.
  by rewrite decide_True.
Qed.

(** [Swap(i, j)] crosses the slots [i] and [j] of the permutation map. *)
Lemma Swap_crosses_slots {W K E} (wr : Wrapped.Interface W K E)
    (ks : Plain.keySortable W K) (i j a b : Z) :
  index (Plain.swaps ks) i = Some a -> index (Plain.swaps ks) j = Some b ->
  index (Plain.swaps (Plain.Swap wr i j ks).2) i = Some b /\
  index (Plain.swaps (Plain.Swap wr i j ks).2) j = Some a.
Proof.
  intros Hi Hj. rewrite Plain.plain_Swap_swaps.
  destruct (exchange (Plain.swaps ks) i j) as [sw|] eqn:Hx.
  - simpl. rewrite !(exchange_index _ _ _ _ _ Hx).
    repeat case_decide; subst; try done; congruence.
  - by rewrite (exchange_Some _ _ _ _ _ Hi Hj) in Hx.
Qed.

(** A first resolution of position [i] gives the identity found in slot [i]
    to the user key function, on the container as it is at that moment. *)
Lemma Key_first_resolution {W K E} (wr : Wrapped.Interface W K E)
    (ks : Plain.keySortable W K) (i id : Z) (v : K) (err : option E) :
  index (Plain.swaps ks) i = Some id -> Plain.memo ks !! id = None ->
  Wrapped.Key wr (Plain.wrapped ks) id = Returned (v, err) ->
  (Plain.Key wr i ks).1 = Returned (v, err) /\
  Plain.memo (Plain.Key wr i ks).2 = <[id := v]> (Plain.memo ks) /\
  Plain.keyCalls (Plain.Key wr i ks).2 = id :: Plain.keyCalls ks.
Proof. intros Hi Hm Hk. unfold Plain.Key. rewrite Hi, Hm. simpl. by rewrite Hk. Qed.

(** C6. The two-element scenario on the container of the tests: [ByIntKey]
    over elements with keys 5 and 3. [Keysort] gives the identity map and
    [Swap(0, 1)] crosses the two slots and swaps the two elements; the
    resolution of position 0 then calls [wrapped.Key(1)], which reads the
    element now at index 1, and returns 5. *)
Theorem swap_then_key_on_ByIntKey :
  exists ks,
    Plain.Keysort ByIntKey.wrapped (ByIntKey.withKeys [5; 3]) = Returned ks /\
    Plain.swaps ks = [0; 1] /\
    let swapped := Plain.Swap ByIntKey.wrapped 0 1 ks in
    swapped.1 = Returned tt /\
    Plain.swaps swapped.2 = [1; 0] /\
    Plain.wrapped swapped.2 = ByIntKey.withKeys [3; 5] /\
    let resolved := Plain.Key ByIntKey.wrapped 0 swapped.2 in
    resolved.1 = Returned (5, None) /\
    Plain.keyCalls resolved.2 = [1].
Proof. eexists. repeat split; vm_compute; reflexivity. Qed.

(** The same scenario on the adapter built by [PrimedKeysort]: both keys
    are in the memo before the swap, and position 0 resolves to 3 without a
    further call. *)
Example swap_then_key_on_primed_ByIntKey :
  exists ks,
    Plain.PrimedKeysort ByIntKey.wrapped (ByIntKey.withKeys [5; 3]) 1 = Returned ks /\
    let swapped := Plain.Swap ByIntKey.wrapped 0 1 ks in
    let resolved := Plain.Key ByIntKey.wrapped 0 swapped.2 in
    resolved.1 = Returned (3, None) /\
    Plain.keyCalls resolved.2 = Plain.keyCalls ks.
Proof. eexists. repeat split; vm_compute; reflexivity. Qed.

(** ** Sorting through the adapter *)

(** Insertion sort compares an element before it moves it: on the README's
    six elements the adapter built by [Keysort] sorts as the container's own
    comparator does, with one key call per identity. *)
Example insertion_sort_through_lazy_adapter :
  let six := ByIntKey.withKeys [13; 11; 9; 12; 8; 10] in
  exists ks,
    Plain.Keysort ByIntKey.wrapped six = Returned ks /\
    let through :=
      Sort.Sort Algorithms.insertionSort (Plain.adapter ByIntKey.wrapped) ks in
    let directly := Sort.Sort Algorithms.insertionSort ByIntKey.direct six in
    Specimen.IntKey <$> Plain.wrapped through.2 = [8; 9; 10; 11; 12; 13] /\
    Plain.wrapped through.2 = directly.2 /\
    length (Plain.keyCalls through.2) = 6%nat.
Proof. eexists. repeat split; vm_compute; reflexivity. Qed.

(** C2. The README's six elements (keys 13, 11, 9, 12, 8, 10) and the sort
    that reverses the range and then insertion-sorts it. Run on the
    container with its own comparator, it leaves the keys in the order
    8, 9, 10, 11, 12, 13; run through the adapter built by [Keysort] on the
    same container, it leaves them in the order 12, 11, 9, 8, 13, 10. *)
Theorem sort_through_lazy_adapter_differs :
  let six := ByIntKey.withKeys [13; 11; 9; 12; 8; 10] in
  exists ks,
    Plain.Keysort ByIntKey.wrapped six = Returned ks /\
    let through :=
      Sort.Sort Algorithms.reverseThenInsertion (Plain.adapter ByIntKey.wrapped) ks in
    let directly := Sort.Sort Algorithms.reverseThenInsertion ByIntKey.direct six in
    through.1 = Returned tt /\
    directly.1 = Returned tt /\
    Specimen.IntKey <$> Plain.wrapped through.2 = [12; 11; 9; 8; 13; 10] /\
    Specimen.IntKey <$> directly.2 = [8; 9; 10; 11; 12; 13] /\
    Plain.wrapped through.2 <> directly.2.
Proof.
  eexists. split; [vm_compute; reflexivity|].
  repeat split; try (vm_compute; reflexivity).
  vm_compute. discriminate.
Qed.

(** * Further properties of the code *)

(** ** Bounds *)

(** X1. A position outside the permutation map makes [Key], [Less] (for its
    first position) and [Swap] (for either position) panic at the bounds
    check of [ks.swaps], in both versions: nothing is changed, and neither
    [wrapped.Key] nor [wrapped.Swap] is called. *)
Theorem out_of_range_position_panics {W K E} (wr : Wrapped.Interface W K E)
    (pks : Plain.keySortable W K) (aks : Aware.keySortable W K E) (i : Z) :
  ~ in_range (length (Plain.swaps pks)) i ->
  ~ in_range (length (Aware.swaps aks)) i ->
  (Plain.Key wr i pks = (Panicked, pks) /\
   (forall j, Plain.Less wr i j pks = (Panicked, pks)) /\
   (forall j, Plain.Swap wr i j pks = (Panicked, pks)) /\
   (forall j, Plain.Swap wr j i pks = (Panicked, pks))) /\
  (Aware.Key wr i aks = (Panicked, aks) /\
   (forall j, Aware.Less wr i j aks = (Panicked, aks)) /\
   (forall j, Aware.Swap wr i j aks = (Panicked, aks)) /\
   (forall j, Aware.Swap wr j i aks = (Panicked, aks))).
Proof.
  intros Hp Ha.
  assert (Hpi : index (Plain.swaps pks) i = None).
  { destruct (index (Plain.swaps pks) i) eqn:H; [|done].
    exfalso. apply Hp. apply index_in_range. eauto. }
  assert (Hai : index (Aware.swaps aks) i = None).
  { destruct (index (Aware.swaps aks) i) eqn:H; [|done].
    exfalso. apply Ha. apply index_in_range. eauto. }
  assert (HpK : Plain.Key wr i pks = (Panicked, pks)).
  { unfold Plain.Key. by rewrite Hpi. }
  assert (HaK : Aware.Key wr i aks = (Panicked, aks)).
  { unfold Aware.Key. by rewrite Hai. }
  split; (split; [done|]); (split; [|split]); intros j.
  - unfold Plain.Less, bind. by rewrite HpK.
  - unfold Plain.Swap, exchange. rewrite Hpi. by destruct (index _ j).
  - unfold Plain.Swap, exchange. by rewrite Hpi.
  - unfold Aware.Less, bind. by rewrite HaK.
  - unfold Aware.Swap, exchange. rewrite Hai. by destruct (index _ j).
  - unfold Aware.Swap, exchange. by rewrite Hai.
Qed.

Lemma out_of_range_position_panics_witness :
  let pks := {| Plain.wrapped := Specimen.GenSpecimen2; Plain.swaps := [0; 1];
                Plain.memo := ∅; Plain.keyCalls := [] |} in
  Plain.Key ByIntKey.wrapped 2 pks = (Panicked, pks) /\
  (forall j, Plain.Less ByIntKey.wrapped 2 j pks = (Panicked, pks)) /\
  (forall j, Plain.Swap ByIntKey.wrapped 2 j pks = (Panicked, pks)) /\
  (forall j, Plain.Swap ByIntKey.wrapped j 2 pks = (Panicked, pks)).
Proof.
  refine (proj1 (out_of_range_position_panics ByIntKey.wrapped
    {| Plain.wrapped := Specimen.GenSpecimen2; Plain.swaps := [0; 1];
       Plain.memo := ∅; Plain.keyCalls := [] |}
    {| Aware.wrapped := Specimen.GenSpecimen2; Aware.swaps := [0; 1];
       Aware.memo := ∅; Aware.errors := ∅; Aware.keyCalls := [] |}
    2 _ _)); unfold in_range; simpl; lia.
Defined.

(** ** The slice of the tests *)

(** X2. [SpecimenSliceSorter.Swap] panics exactly when one of the two
    indexes is out of range. When it returns, the slice has the same length
    and the same elements, the elements at [i] and [j] are exchanged, every
    other index reads as before, and the same swap again restores the
    slice. *)
Theorem SpecimenSliceSorter_Swap_exchanges (s : Specimen.SpecimenSliceSorter) (i j : Z) :
  (Specimen.Swap s i j = Panicked <->
     ~ (in_range (length s) i /\ in_range (length s) j)) /\
  (forall s', Specimen.Swap s i j = Returned s' ->
     Specimen.Len s' = Specimen.Len s /\
     s' ≡ₚ s /\
     Specimen.At s' i = Specimen.At s j /\
     Specimen.At s' j = Specimen.At s i /\
     (forall k, k <> i -> k <> j -> Specimen.At s' k = Specimen.At s k) /\
     Specimen.Swap s' i j = Returned s).
Proof.
  unfold Specimen.Swap, Specimen.At, Specimen.Len. split.
  - destruct (exchange s i j) as [s'|] eqn:Hx.
    + split; [done|]. intros Hn. exfalso. apply Hn.
      apply exchange_inv in Hx as (a & b & Ha & Hb & _).
      split; eapply index_lt; eauto.
    + split; [|done]. intros _ [Hi Hj].
      destruct (exchange_in_range s i j Hi Hj) as [? ?]. congruence.
  - intros s'. destruct (exchange s i j) as [s1|] eqn:Hx; [|done].
    intros [= ->]. split; [by rewrite (exchange_length _ _ _ _ Hx)|].
    split; [by eapply exchange_Permutation|].
    rewrite (exchange_twice _ _ _ _ Hx).
    repeat split.
    + rewrite (exchange_index _ _ _ _ i Hx). by repeat case_decide; subst.
    + rewrite (exchange_index _ _ _ _ j Hx). by repeat case_decide; subst.
    + intros k Hki Hkj. rewrite (exchange_index _ _ _ _ k Hx).
      by repeat case_decide.
Qed.

(** ** The primer of keysort.go *)

Section PlainPrimer.
Context {W K E : Type}.
Variable wr : Wrapped.Interface W K E.

(** One run of the worker loop over the indexes [l], none of them resolved
    yet, on an adapter that has not swapped: every index is given to
    [wrapped.Key] once, in order, and its value is written to the memo. *)
Lemma plain_prime_run (w : W) (l : list Z) (ks : Plain.keySortable W K) :
  Plain.wrapped ks = w -> Plain.swaps ks = iota (Wrapped.Len wr w) ->
  Forall (fun i => 0 <= i < Wrapped.Len wr w) l -> NoDup l ->
  (forall i, i ∈ l -> Plain.memo ks !! i = None) ->
  (forall i, i ∈ l -> Wrapped.Key wr w i <> Panicked) ->
  exists ks',
    each (fun val => Plain.Key wr val ;;; ret tt) l ks = (Returned tt, ks') /\
    Plain.wrapped ks' = w /\ Plain.swaps ks' = iota (Wrapped.Len wr w) /\
    Plain.keyCalls ks' = reverse l ++ Plain.keyCalls ks /\
    (forall i, i ∉ l -> Plain.memo ks' !! i = Plain.memo ks !! i) /\
    (forall i v err, i ∈ l -> Wrapped.Key wr w i = Returned (v, err) ->
                     Plain.memo ks' !! i = Some v).
Proof.
  revert ks. induction l as [|i l IH]; intros ks Hw Hsw Hl Hnd Hfresh Hret.
  - exists ks. repeat split; try done. intros i v err Hi. by apply elem_of_nil in Hi.
  - apply Forall_cons in Hl as [Hi Hl]. apply NoDup_cons in Hnd as [Hil Hnd].
    destruct (Wrapped.Key wr w i) as [[v err]|] eqn:Hk;
      [|by destruct (Hret i (list_elem_of_here _ _))].
    set (ks1 := {| Plain.wrapped := Plain.wrapped ks; Plain.swaps := Plain.swaps ks;
                   Plain.memo := <[i := v]> (Plain.memo ks);
                   Plain.keyCalls := i :: Plain.keyCalls ks |}).
    assert (Hkey : Plain.Key wr i ks = (Returned (v, err), ks1)).
    { unfold Plain.Key. rewrite Hsw, iota_index, decide_True by done.
      rewrite (Hfresh i) by left. simpl. rewrite Hw, Hk. done. }
    destruct (IH ks1) as (ks' & Hrun & Hw' & Hsw' & Hc' & Hm1 & Hm2); try done.
    + intros k Hkl. simpl. rewrite lookup_insert_ne by (intros ->; done).
      apply Hfresh. by right.
    + intros k Hkl. apply Hret. by right.
    + exists ks'. split.
      { cbn [each]. unfold bind at 1 2. rewrite Hkey. exact Hrun. }
      split; [done|]. split; [done|]. split.
      { rewrite Hc'. simpl. rewrite reverse_cons, <- app_assoc. done. }
      split.
      * intros k Hk'. rewrite Hm1 by (intros ?; apply Hk'; by right).
        simpl. apply lookup_insert_ne. intros ->. apply Hk'. by left.
      * intros k v' err' [->|Hkl]%elem_of_cons Hk'.
        -- rewrite Hm1 by done. simpl. rewrite lookup_insert_eq. congruence.
        -- by eapply Hm2.
Qed.

(** The worker loop panics as soon as [wrapped.Key] does. *)
Lemma plain_prime_panics (w : W) (l : list Z) (ks : Plain.keySortable W K) (i : Z) :
  Plain.wrapped ks = w -> Plain.swaps ks = iota (Wrapped.Len wr w) ->
  Forall (fun i => 0 <= i < Wrapped.Len wr w) l ->
  (forall i, i ∈ l -> Plain.memo ks !! i = None) -> NoDup l ->
  i ∈ l -> Wrapped.Key wr w i = Panicked ->
  (each (fun val => Plain.Key wr val ;;; ret tt) l ks).1 = Panicked.
Proof.
  revert ks. induction l as [|k l IH]; intros ks Hw Hsw Hl Hfresh Hnd Hi Hp.
  - by apply elem_of_nil in Hi.
  - apply Forall_cons in Hl as [Hk Hl]. apply NoDup_cons in Hnd as [Hkl Hnd].
    cbn [each]. unfold bind at 1 2. unfold Plain.Key at 1.
    rewrite Hsw, iota_index, decide_True by done.
    rewrite (Hfresh k) by left. simpl. rewrite Hw.
    destruct (Wrapped.Key wr w k) as [[v err]|] eqn:Hkk; [|done].
    apply elem_of_cons in Hi as [->|Hi]; [congruence|].
    apply IH; try done. intros x Hx. simpl.
    rewrite lookup_insert_ne by (intros ->; done). apply Hfresh. by right.
Qed.

Lemma iota_range n : Forall (fun i => 0 <= i < n) (iota n).
Proof.
  apply Forall_forall. intros i [k [-> Hk]]%list_elem_of_fmap.
  apply elem_of_seq in Hk. lia.
Qed.

Lemma iota_NoDup n : NoDup (iota n).
Proof.
  unfold iota. apply NoDup_fmap_2; [|apply NoDup_seq].
  intros a b. lia.
Qed.

Lemma iota_elem n i : i ∈ iota n <-> 0 <= i < n.
Proof.
  split.
  - intros H. pose proof (iota_range n) as Hr. rewrite Forall_forall in Hr. by apply Hr.
  - intros H. apply list_elem_of_fmap. exists (Z.to_nat i).
    split; [lia|]. apply elem_of_seq. lia.
Qed.

(** Every identity that a slot of [swaps] can hold has its key in the
    memo. *)
Definition covered (ks : Plain.keySortable W K) : Prop :=
  forall p id, index (Plain.swaps ks) p = Some id -> is_Some (Plain.memo ks !! id).

(** A call changes neither the memo nor the log of key calls, and leaves the
    adapter covered. *)
Definition silent (ks ks' : Plain.keySortable W K) : Prop :=
  covered ks ->
  covered ks' /\ Plain.memo ks' = Plain.memo ks /\
  Plain.keyCalls ks' = Plain.keyCalls ks.

#[local] Instance silent_preorder : PreOrder silent.
Proof.
  split; [by intros ks ?|].
  intros ks1 ks2 ks3 H1 H2 Hc. destruct (H1 Hc) as (Hc2 & Hm2 & Hk2).
  destruct (H2 Hc2) as (Hc3 & Hm3 & Hk3). split; [done|]. split; congruence.
Qed.

Lemma plain_Key_silent i ks : silent ks (Plain.Key wr i ks).2.
Proof.
  intros Hc. unfold Plain.Key. destruct (index (Plain.swaps ks) i) as [id|] eqn:Hi; [|done].
  destruct (Hc _ _ Hi) as [v Hv]. by rewrite Hv.
Qed.

Lemma plain_perform_silent ks c : silent ks (Plain.perform wr ks c).
Proof.
  destruct c; cbn [Plain.perform].
  - apply plain_Key_silent.
  - unfold Plain.Less. apply (bind_preserved silent); [apply plain_Key_silent|].
    intros a s. apply (bind_preserved silent); [apply plain_Key_silent | done].
  - intros Hc. unfold Plain.Swap.
    destruct (exchange (Plain.swaps ks) i j) as [sw|] eqn:Hx; [|done].
    assert (Hc' : forall p id, index sw p = Some id -> is_Some (Plain.memo ks !! id)).
    { intros p id. rewrite (exchange_index _ _ _ _ _ Hx). repeat case_decide; apply Hc. }
    simpl. by destruct (Wrapped.Swap wr (Plain.wrapped ks) i j).
  - done.
  - unfold Plain.prime. apply (each_preserved silent). intros x s.
    apply (bind_preserved silent); [apply plain_Key_silent | done].
Qed.

Lemma plain_performs_silent cs ks : silent ks (Plain.performs wr cs ks).
Proof. apply (foldl_preserved silent). apply plain_perform_silent. Qed.

Lemma plain_follow_silent p ks : silent ks (Sort.follow (Plain.adapter wr) p ks).2.
Proof.
  revert ks. induction p as [|i j next IH|i j next IH]; intros ks; cbn [Sort.follow].
  - done.
  - apply (bind_preserved silent); [|intros _ s; apply IH].
    intros s. apply (plain_perform_silent s (Plain.CallSwap i j)).
  - apply (bind_preserved silent); [|intros b s; apply IH].
    intros s. apply (plain_perform_silent s (Plain.CallLess i j)).
Qed.

Lemma panicked_dec {A} (o : outcome A) : {o <> Panicked} + {o = Panicked}.
Proof. destruct o; [left; discriminate | right; reflexivity]. Qed.

(** What [PrimedKeysort] comes to, in its two outcomes. *)
Lemma plain_PrimedKeysort_outcome (w : W) (parallelism : Z) :
  let n := Wrapped.Len wr w in
  match Plain.PrimedKeysort wr w parallelism with
  | Returned ks =>
      0 <= n /\
      (forall i, 0 <= i < n -> Wrapped.Key wr w i <> Panicked) /\
      Plain.wrapped ks = w /\ Plain.swaps ks = iota n /\
      Plain.keyCalls ks = reverse (iota n) /\
      (forall i, ~ 0 <= i < n -> Plain.memo ks !! i = None) /\
      (forall i v err, 0 <= i < n -> Wrapped.Key wr w i = Returned (v, err) ->
                       Plain.memo ks !! i = Some v)
  | Panicked =>
      n < 0 \/ exists i, 0 <= i < n /\ Wrapped.Key wr w i = Panicked
  end.
Proof.
  intros n. unfold Plain.PrimedKeysort, Plain.Keysort. fold n.
  destruct (decide (n < 0)) as [Hneg|Hpos]; [by left|].
  set (ks0 := {| Plain.wrapped := w; Plain.swaps := iota n;
                 Plain.memo := ∅; Plain.keyCalls := [] |}).
  unfold Plain.prime. change (Wrapped.Len wr (Plain.wrapped ks0)) with n.
  destruct (Forall_Exists_dec (fun i => Wrapped.Key wr w i <> Panicked)
              (fun i => Wrapped.Key wr w i = Panicked)
              (fun i => panicked_dec (Wrapped.Key wr w i)) (iota n)) as [Hall|Hex].
  - rewrite Forall_forall in Hall.
    destruct (plain_prime_run w (iota n) ks0 eq_refl eq_refl
                (iota_range _) (iota_NoDup _) (fun _ _ => lookup_empty _) Hall)
      as (ks' & Hrun & Hw & Hsw & Hc & Hm1 & Hm2).
    rewrite Hrun. split; [lia|]. split.
    { intros i Hi. apply Hall. by apply iota_elem. }
    split; [done|]. split; [done|]. split.
    { rewrite Hc. simpl. by rewrite app_nil_r. }
    split.
    + intros i Hi. rewrite Hm1; [apply lookup_empty|]. by rewrite iota_elem.
    + intros i v err Hi. apply Hm2. by apply iota_elem.
  - apply Exists_exists in Hex as (i & Hi & Hp).
    pose proof (plain_prime_panics w (iota n) ks0 i eq_refl eq_refl
                  (iota_range _) (fun _ _ => lookup_empty _) (iota_NoDup _) Hi Hp)
      as Hpanic.
    destruct (each _ (iota n) ks0) as [[[]|] ks']; simpl in *; [done|].
    right. exists i. split; [by apply iota_elem | done].
Qed.

End PlainPrimer.



(** X5. After [PrimedKeysort] of keysort.go, no call of [Key], [Less],
    [Swap], [Len] or of the primer, and no run of a sort algorithm through
    the adapter, calls [wrapped.Key] again or changes the memo. *)
Theorem primed_adapter_makes_no_key_call {W K E} (wr : Wrapped.Interface W K E) (w : W)
    (parallelism : Z) (ks : Plain.keySortable W K)
    (cs : list Plain.call) (alg : Sort.algorithm) :
  Plain.PrimedKeysort wr w parallelism = Returned ks ->
  (Plain.keyCalls (Plain.performs wr cs ks) = Plain.keyCalls ks /\
   Plain.memo (Plain.performs wr cs ks) = Plain.memo ks) /\
  (Plain.keyCalls (Sort.Sort alg (Plain.adapter wr) ks).2 = Plain.keyCalls ks /\
   Plain.memo (Sort.Sort alg (Plain.adapter wr) ks).2 = Plain.memo ks).
Proof.
  intros Hks.
  pose proof (plain_PrimedKeysort_outcome wr w parallelism) as H. simpl in H.
  rewrite Hks in H. destruct H as (_ & Hret & Hw & Hsw & Hc & Hm1 & Hm2).
  assert (Hcov : covered ks).
  { intros p id. rewrite Hsw, iota_index. case_decide as Hp; [|done]. intros [= <-].
    specialize (Hret p Hp). destruct (Wrapped.Key wr w p) as [[v err]|] eqn:Hk; [|done].
    rewrite (Hm2 p v err Hp Hk). eauto. }
  split.
  - destruct (plain_performs_silent wr cs ks Hcov) as (_ & Hm & Hk). done.
  - unfold Sort.Sort. cbn [Sort.Len Plain.adapter Plain.Len].
    destruct (plain_follow_silent wr (alg (Wrapped.Len wr (Plain.wrapped ks))) ks Hcov)
      as (_ & Hm & Hk). done.
Qed.

Lemma primed_adapter_makes_no_key_call_witness :
  exists ks,
    Plain.PrimedKeysort ByIntKey.wrapped (ByIntKey.withKeys [13; 11; 9; 12; 8; 10]) 1
      = Returned ks /\
    Plain.keyCalls (Sort.Sort Algorithms.reverseThenInsertion
                      (Plain.adapter ByIntKey.wrapped) ks).2 = Plain.keyCalls ks /\
    Plain.memo (Sort.Sort Algorithms.reverseThenInsertion
                  (Plain.adapter ByIntKey.wrapped) ks).2 = Plain.memo ks.
Proof.
  eexists. split; [vm_compute; reflexivity|].
  refine (proj2 (primed_adapter_makes_no_key_call ByIntKey.wrapped
    (ByIntKey.withKeys [13; 11; 9; 12; 8; 10]) 1 _ [] Algorithms.reverseThenInsertion _)).
  vm_compute. reflexivity.
Defined.

(** ** The primer of the error-aware version *)

Section AwarePrimer.
Context {W K E : Type}.
Variable wr : Wrapped.Interface W K E.





End AwarePrimer.



(** ** How often the user key function is called *)

(** The log of key calls has no repeat, holds exactly the identities of the
    memo, and only identities that are in the permutation map. *)
Definition called_once {K} (swaps : list Z) (memo : gmap Z K) (keyCalls : list Z) : Prop :=
  NoDup keyCalls /\
  (forall id, id ∈ keyCalls <-> is_Some (memo !! id)) /\
  (forall id, id ∈ keyCalls -> id ∈ swaps).

Lemma called_once_first {K} (swaps : list Z) (memo : gmap Z K) keyCalls i id v :
  called_once swaps memo keyCalls -> index swaps i = Some id -> memo !! id = None ->
  called_once swaps (<[id := v]> memo) (id :: keyCalls).
Proof.
  intros (Hnd & Hm & Hs) Hi Hmiss.
  assert (Hfresh : id ∉ keyCalls).
  { intros Hin. apply Hm in Hin as [? ?]. congruence. }
  split; [by apply NoDup_cons|]. split.
  - intros k. rewrite elem_of_cons. destruct (decide (k = id)) as [->|Hne].
    + rewrite lookup_insert_eq. split; eauto.
    + rewrite lookup_insert_ne by done. rewrite <- Hm.
      split; [by intros [?|?] | by right].
  - intros k [->|Hk]%elem_of_cons; [|by apply Hs].
    apply index_Some in Hi as [_ Hi]. by eapply list_elem_of_lookup_2.
Qed.

Lemma called_once_Permutation {K} (swaps swaps' : list Z) (memo : gmap Z K) keyCalls :
  swaps' ≡ₚ swaps -> called_once swaps memo keyCalls -> called_once swaps' memo keyCalls.
Proof.
  intros HP (Hnd & Hm & Hs). split; [done|]. split; [done|].
  intros id Hid. rewrite HP. by apply Hs.
Qed.

(** With [swaps] a rearrangement of [0 .. n-1]: at most [n] calls, all for
    identities of [[0, n)]. *)
Lemma called_once_bound {K} (swaps : list Z) (memo : gmap Z K) keyCalls n :
  swaps ≡ₚ iota n -> called_once swaps memo keyCalls ->
  (forall id, id ∈ keyCalls -> 0 <= id < n) /\
  (length keyCalls <= Z.to_nat n)%nat.
Proof.
  intros HP (Hnd & Hm & Hs).
  assert (Hsub : forall id, id ∈ keyCalls -> id ∈ iota n).
  { intros id Hid. rewrite <- HP. by apply Hs. }
  split.
  - intros id Hid. apply Hsub in Hid.
    apply list_elem_of_fmap in Hid as [k [-> Hk]]. apply elem_of_seq in Hk. lia.
  - rewrite <- (iota_length n). apply submseteq_length. by apply NoDup_submseteq.
Qed.

Section CalledOnce.
Context {W K E : Type}.
Variable wr : Wrapped.Interface W K E.
Variable n : Z.
Hypothesis Key_returns :
  forall c k, 0 <= k < Wrapped.Len wr c -> Wrapped.Key wr c k <> Panicked.
Hypothesis Swap_keeps_Len :
  forall c i j c', Wrapped.Swap wr c i j = Returned c' -> Wrapped.Len wr c' = Wrapped.Len wr c.

Definition plain_tidy (ks : Plain.keySortable W K) : Prop :=
  Wrapped.Len wr (Plain.wrapped ks) = n /\ Plain.swaps ks ≡ₚ iota n /\
  called_once (Plain.swaps ks) (Plain.memo ks) (Plain.keyCalls ks).

Definition aware_tidy (ks : Aware.keySortable W K E) : Prop :=
  Wrapped.Len wr (Aware.wrapped ks) = n /\ Aware.swaps ks ≡ₚ iota n /\
  called_once (Aware.swaps ks) (Aware.memo ks) (Aware.keyCalls ks).

Definition plain_once (ks ks' : Plain.keySortable W K) : Prop :=
  plain_tidy ks -> plain_tidy ks'.

Definition aware_once (ks ks' : Aware.keySortable W K E) : Prop :=
  aware_tidy ks -> aware_tidy ks'.

#[local] Instance plain_once_preorder : PreOrder plain_once.
Proof. split; [by intros ks ?|]. intros ks1 ks2 ks3 H1 H2 H. auto. Qed.

#[local] Instance aware_once_preorder : PreOrder aware_once.
Proof. split; [by intros ks ?|]. intros ks1 ks2 ks3 H1 H2 H. auto. Qed.

Lemma slot_in_range (swaps : list Z) i id :
  swaps ≡ₚ iota n -> index swaps i = Some id -> 0 <= id < n.
Proof.
  intros HP [_ Hi]%index_Some. apply list_elem_of_lookup_2 in Hi.
  rewrite HP in Hi. apply list_elem_of_fmap in Hi as [k [-> Hk]].
  apply elem_of_seq in Hk. lia.
Qed.

Lemma plain_Key_once i ks : plain_once ks (Plain.Key wr i ks).2.
Proof.
  intros (Hlen & HP & H). unfold Plain.Key.
  destruct (index (Plain.swaps ks) i) as [id|] eqn:Hi; [|done].
  destruct (Plain.memo ks !! id) as [v|] eqn:Hm; [done|]. simpl.
  pose proof (slot_in_range _ _ _ HP Hi) as Hid. rewrite <- Hlen in Hid.
  pose proof (Key_returns _ _ Hid) as Hnp.
  destruct (Wrapped.Key wr (Plain.wrapped ks) id) as [[v err]|]; [|done].
  split; [done|]. split; [done|]. simpl. by eapply called_once_first.
Qed.

Lemma aware_Key_once i ks : aware_once ks (Aware.Key wr i ks).2.
Proof.
  intros (Hlen & HP & H). unfold Aware.Key.
  destruct (index (Aware.swaps ks) i) as [id|] eqn:Hi; [|done].
  destruct (Aware.memo ks !! id) as [v|] eqn:Hm; [done|]. simpl.
  pose proof (slot_in_range _ _ _ HP Hi) as Hid. rewrite <- Hlen in Hid.
  pose proof (Key_returns _ _ Hid) as Hnp.
  destruct (Wrapped.Key wr (Aware.wrapped ks) id) as [[v [err|]]|]; [| |done];
    (split; [done|]; split; [done|]; simpl; by eapply called_once_first).
Qed.

Lemma plain_perform_once ks c : plain_once ks (Plain.perform wr ks c).
Proof.
  destruct c; cbn [Plain.perform].
  - apply plain_Key_once.
  - unfold Plain.Less. apply (bind_preserved plain_once); [apply plain_Key_once|].
    intros a s. apply (bind_preserved plain_once); [apply plain_Key_once | done].
  - intros (Hlen & HP & H). unfold Plain.Swap.
    destruct (exchange (Plain.swaps ks) i j) as [sw|] eqn:Hx; [|done].
    apply exchange_Permutation in Hx.
    simpl. destruct (Wrapped.Swap wr (Plain.wrapped ks) i j) as [w'|] eqn:Hw;
      unfold plain_tidy; simpl.
    + split; [by rewrite (Swap_keeps_Len _ _ _ _ Hw)|]. split; [by rewrite Hx|].
      by eapply called_once_Permutation.
    + split; [done|]. split; [by rewrite Hx|]. by eapply called_once_Permutation.
  - done.
  - unfold Plain.prime. apply (each_preserved plain_once). intros x s.
    apply (bind_preserved plain_once); [apply plain_Key_once | done].
Qed.

Lemma aware_perform_once ks c : aware_once ks (Aware.perform wr ks c).
Proof.
  destruct c; cbn [Aware.perform].
  - apply aware_Key_once.
  - unfold Aware.Less. apply (bind_preserved aware_once); [apply aware_Key_once|].
    intros a s. apply (bind_preserved aware_once); [apply aware_Key_once|].
    intros b s'. by destruct (Aware.Errors s').
  - intros (Hlen & HP & H). unfold Aware.Swap.
    destruct (exchange (Aware.swaps ks) i j) as [sw|] eqn:Hx; [|done].
    apply exchange_Permutation in Hx.
    simpl. destruct (Wrapped.Swap wr (Aware.wrapped ks) i j) as [w'|] eqn:Hw;
      unfold aware_tidy; simpl.
    + split; [by rewrite (Swap_keeps_Len _ _ _ _ Hw)|]. split; [by rewrite Hx|].
      by eapply called_once_Permutation.
    + split; [done|]. split; [by rewrite Hx|]. by eapply called_once_Permutation.
  - done.
  - unfold Aware.memoize. apply (each_preserved aware_once). intros x s.
    apply (bind_preserved aware_once); [apply aware_Key_once | done].
  - rewrite Aware.aware_ClearErrors_eq. intros H. exact H.
  - rewrite Aware.aware_RetryFailed_eq. intros H. exact H.
Qed.

Lemma plain_performs_once cs ks : plain_once ks (Plain.performs wr cs ks).
Proof. apply (foldl_preserved plain_once). apply plain_perform_once. Qed.

Lemma aware_performs_once cs ks : aware_once ks (Aware.performs wr cs ks).
Proof. apply (foldl_preserved aware_once). apply aware_perform_once. Qed.



End CalledOnce.

Lemma called_once_fresh {K} (swaps : list Z) : called_once swaps (∅ : gmap Z K) [].
Proof.
  split; [constructor|]. split.
  - intros id. rewrite lookup_empty. split; [by intros ?%elem_of_nil | by intros [? ?]].
  - by intros id ?%elem_of_nil.
Qed.

(** X7. For a container whose [Key] does not panic for the indexes below
    [Len] and whose [Swap] keeps [Len]: an adapter built by [Keysort] over
    [n] elements (either version) calls [wrapped.Key] at most once for each
    identity and only for identities of [[0, n)], so at most [n] times,
    whatever calls are made, and the memo holds exactly the identities it
    was called for. In the error-aware version this includes calls of
    [ClearErrors] and [RetryFailed]. *)
Theorem key_function_called_at_most_once {W K E} (wr : Wrapped.Interface W K E) (w : W)
    (pks : Plain.keySortable W K) (aks : Aware.keySortable W K E)
    (pcs : list Plain.call) (acs : list Aware.call) :
  (forall c k, 0 <= k < Wrapped.Len wr c -> Wrapped.Key wr c k <> Panicked) ->
  (forall c i j c', Wrapped.Swap wr c i j = Returned c' ->
                    Wrapped.Len wr c' = Wrapped.Len wr c) ->
  Plain.Keysort wr w = Returned pks ->
  Aware.Keysort wr w = Returned aks ->
  let n := Wrapped.Len wr w in
  let pks' := Plain.performs wr pcs pks in
  let aks' := Aware.performs wr acs aks in
  (NoDup (Plain.keyCalls pks') /\
   (forall id, id ∈ Plain.keyCalls pks' -> 0 <= id < n) /\
   (length (Plain.keyCalls pks') <= Z.to_nat n)%nat /\
   (forall id, id ∈ Plain.keyCalls pks' <-> is_Some (Plain.memo pks' !! id))) /\
  (NoDup (Aware.keyCalls aks') /\
   (forall id, id ∈ Aware.keyCalls aks' -> 0 <= id < n) /\
   (length (Aware.keyCalls aks') <= Z.to_nat n)%nat /\
   (forall id, id ∈ Aware.keyCalls aks' <-> is_Some (Aware.memo aks' !! id))).
Proof.
  intros Hkey Hswap Hp Ha n pks' aks'.
  pose proof (Plain.plain_Keysort_inv wr w pks Hp) as (Hpw & Hps & Hpm & Hpc).
  pose proof (Aware.aware_Keysort_inv wr w aks Ha) as (Haw & Has & Ham & _ & Hac).
  assert (Hp0 : plain_tidy wr n pks).
  { split; [by rewrite Hpw|]. split; [by rewrite Hps|].
    rewrite Hpm, Hpc. apply called_once_fresh. }
  assert (Ha0 : aware_tidy wr n aks).
  { split; [by rewrite Haw|]. split; [by rewrite Has|].
    rewrite Ham, Hac. apply called_once_fresh. }
  destruct (plain_performs_once wr n Hkey Hswap pcs pks Hp0) as (_ & HP & Hp1).
  destruct (aware_performs_once wr n Hkey Hswap acs aks Ha0) as (_ & HA & Ha1).
  destruct (called_once_bound _ _ _ _ HP Hp1) as [Hpr Hpl].
  destruct (called_once_bound _ _ _ _ HA Ha1) as [Har Hal].
  destruct Hp1 as (? & ? & _), Ha1 as (? & ? & _). done.
Qed.

(** The containers of the tests meet the two conditions. *)
Lemma Specimen_Key_returns (s : Specimen.SpecimenSliceSorter) (k : Z) :
  0 <= k < Specimen.Len s -> FailsAt3.Key s k <> Panicked /\ ByIntKey.Key s k <> Panicked.
Proof.
  intros Hk. assert (Hr : in_range (length s) k) by (unfold Specimen.Len in Hk; done).
  apply index_in_range in Hr as [e He].
  unfold FailsAt3.Key, ByIntKey.Key, Specimen.At. rewrite He.
  split; [by case_decide | done].
Qed.

Lemma Specimen_Swap_keeps_Len (s : Specimen.SpecimenSliceSorter) (i j : Z)
    (s' : Specimen.SpecimenSliceSorter) :
  Specimen.Swap s i j = Returned s' -> Specimen.Len s' = Specimen.Len s.
Proof.
  unfold Specimen.Swap, Specimen.Len.
  destruct (exchange s i j) as [s1|] eqn:Hx; [|done]. intros [= <-].
  by rewrite (exchange_length _ _ _ _ Hx).
Qed.

Lemma key_function_called_at_most_once_witness :
  let aks' := Aware.performs FailsAt3.wrapped
                [Aware.CallLess 0 1; Aware.CallSwap 0 3; Aware.CallLess 3 0;
                 Aware.CallRetryFailed 1; Aware.CallLess 0 3; Aware.CallPrimer 2]
                {| Aware.wrapped := ByIntKey.withKeys [13; 11; 9; 12];
                   Aware.swaps := [0; 1; 2; 3]; Aware.memo := ∅; Aware.errors := ∅;
                   Aware.keyCalls := [] |} in
  NoDup (Aware.keyCalls aks') /\
  (forall id, id ∈ Aware.keyCalls aks' -> 0 <= id < 4) /\
  (length (Aware.keyCalls aks') <= 4)%nat /\
  (forall id, id ∈ Aware.keyCalls aks' <-> is_Some (Aware.memo aks' !! id)).
Proof.
  refine (proj2 (key_function_called_at_most_once FailsAt3.wrapped
    (ByIntKey.withKeys [13; 11; 9; 12])
    {| Plain.wrapped := ByIntKey.withKeys [13; 11; 9; 12];
       Plain.swaps := [0; 1; 2; 3]; Plain.memo := ∅; Plain.keyCalls := [] |}
    {| Aware.wrapped := ByIntKey.withKeys [13; 11; 9; 12];
       Aware.swaps := [0; 1; 2; 3]; Aware.memo := ∅; Aware.errors := ∅;
       Aware.keyCalls := [] |}
    []
    [Aware.CallLess 0 1; Aware.CallSwap 0 3; Aware.CallLess 3 0;
     Aware.CallRetryFailed 1; Aware.CallLess 0 3; Aware.CallPrimer 2]
    (fun c k H => proj1 (Specimen_Key_returns c k H))
    Specimen_Swap_keeps_Len eq_refl eq_refl)).
Defined.

(** ** [Less] while an error is recorded *)



(** ** The permutation map and the elements of a slice *)

Section Tracking.
Context {A K E : Type}.
Variable wr : Wrapped.Interface (list A) K E.
Variable original : list A.
Hypothesis Swap_is_exchange :
  forall c i j, Wrapped.Swap wr c i j =
                match exchange c i j with Some c' => Returned c' | None => Panicked end.

(** Position [p] of the container holds the element that was at index
    [swaps[p]] when the adapter was built. *)
Definition tracked (swaps : list Z) (wrapped : list A) : Prop :=
  length wrapped = length swaps /\
  forall p, index wrapped p =
            match index swaps p with Some id => index original id | None => None end.

Definition plain_tracking (ks ks' : Plain.keySortable (list A) K) : Prop :=
  tracked (Plain.swaps ks) (Plain.wrapped ks) ->
  tracked (Plain.swaps ks') (Plain.wrapped ks').

Definition aware_tracking (ks ks' : Aware.keySortable (list A) K E) : Prop :=
  tracked (Aware.swaps ks) (Aware.wrapped ks) ->
  tracked (Aware.swaps ks') (Aware.wrapped ks').

#[local] Instance plain_tracking_preorder : PreOrder plain_tracking.
Proof. split; [by intros ks ?|]. intros ks1 ks2 ks3 H1 H2 H. auto. Qed.

#[local] Instance aware_tracking_preorder : PreOrder aware_tracking.
Proof. split; [by intros ks ?|]. intros ks1 ks2 ks3 H1 H2 H. auto. Qed.

Lemma tracked_exchange swaps wrapped i j sw :
  tracked swaps wrapped -> exchange swaps i j = Some sw ->
  exists wrapped', exchange wrapped i j = Some wrapped' /\ tracked sw wrapped'.
Proof.
  intros [Hlen Ht] Hx.
  destruct (exchange_inv _ _ _ _ Hx) as (a & b & Ha & Hb & _).
  apply index_lt in Ha, Hb. rewrite <- Hlen in Ha, Hb.
  destruct (exchange_in_range wrapped i j Ha Hb) as [wrapped' Hw].
  exists wrapped'. split; [done|]. split.
  - by rewrite (exchange_length _ _ _ _ Hw), (exchange_length _ _ _ _ Hx).
  - intros p. rewrite (exchange_index _ _ _ _ _ Hw), (exchange_index _ _ _ _ _ Hx).
    repeat case_decide; apply Ht.
Qed.

Lemma plain_Key_tracking i ks : plain_tracking ks (Plain.Key wr i ks).2.
Proof.
  intros H. unfold Plain.Key. destruct (index (Plain.swaps ks) i) as [id|]; [|done].
  destruct (Plain.memo ks !! id); [done|]. simpl.
  by destruct (Wrapped.Key wr (Plain.wrapped ks) id) as [[??]|].
Qed.

Lemma aware_Key_tracking i ks : aware_tracking ks (Aware.Key wr i ks).2.
Proof.
  intros H. unfold Aware.Key. destruct (index (Aware.swaps ks) i) as [id|]; [|done].
  destruct (Aware.memo ks !! id); [done|]. simpl.
  by destruct (Wrapped.Key wr (Aware.wrapped ks) id) as [[? [?|]]|].
Qed.

Lemma plain_perform_tracking ks c : plain_tracking ks (Plain.perform wr ks c).
Proof.
  destruct c; cbn [Plain.perform].
  - apply plain_Key_tracking.
  - unfold Plain.Less. apply (bind_preserved plain_tracking); [apply plain_Key_tracking|].
    intros a s. apply (bind_preserved plain_tracking); [apply plain_Key_tracking | done].
  - intros H. unfold Plain.Swap.
    destruct (exchange (Plain.swaps ks) i j) as [sw|] eqn:Hx; [|done].
    destruct (tracked_exchange _ _ _ _ _ H Hx) as (w' & Hw & Ht).
    simpl. rewrite Swap_is_exchange, Hw. done.
  - done.
  - unfold Plain.prime. apply (each_preserved plain_tracking). intros x s.
    apply (bind_preserved plain_tracking); [apply plain_Key_tracking | done].
Qed.

Lemma aware_perform_tracking ks c : aware_tracking ks (Aware.perform wr ks c).
Proof.
  destruct c; cbn [Aware.perform].
  - apply aware_Key_tracking.
  - unfold Aware.Less. apply (bind_preserved aware_tracking); [apply aware_Key_tracking|].
    intros a s. apply (bind_preserved aware_tracking); [apply aware_Key_tracking|].
    intros b s'. by destruct (Aware.Errors s').
  - intros H. unfold Aware.Swap.
    destruct (exchange (Aware.swaps ks) i j) as [sw|] eqn:Hx; [|done].
    destruct (tracked_exchange _ _ _ _ _ H Hx) as (w' & Hw & Ht).
    simpl. rewrite Swap_is_exchange, Hw. done.
  - done.
  - unfold Aware.memoize. apply (each_preserved aware_tracking). intros x s.
    apply (bind_preserved aware_tracking); [apply aware_Key_tracking | done].
  - rewrite Aware.aware_ClearErrors_eq. intros H. exact H.
  - rewrite Aware.aware_RetryFailed_eq. intros H. exact H.
Qed.

Lemma plain_performs_tracking cs ks : plain_tracking ks (Plain.performs wr cs ks).
Proof. apply (foldl_preserved plain_tracking). apply plain_perform_tracking. Qed.

Lemma aware_performs_tracking cs ks : aware_tracking ks (Aware.performs wr cs ks).
Proof. apply (foldl_preserved aware_tracking). apply aware_perform_tracking. Qed.

Lemma tracked_identity : tracked (iota (Z.of_nat (length original))) original.
Proof.
  split; [by rewrite iota_length, Nat2Z.id|].
  intros p. rewrite iota_index. case_decide as Hp; [done|].
  destruct (index original p) eqn:Hi; [|done].
  apply index_lt in Hi. unfold in_range in Hi. lia.
Qed.

End Tracking.

(** X8. For a container that is a slice whose [Swap] exchanges two elements
    and whose [Len] is its length: after any calls on an adapter built by
    [Keysort] (either version), the element at each position [p] of the
    container is the element that was at index [swaps[p]] when the adapter
    was built, and the container and the permutation map have the same
    length. *)
Theorem swaps_names_the_element_at_each_position {A K E}
    (wr : Wrapped.Interface (list A) K E) (original : list A)
    (pks : Plain.keySortable (list A) K) (aks : Aware.keySortable (list A) K E)
    (pcs : list Plain.call) (acs : list Aware.call) :
  (forall c i j, Wrapped.Swap wr c i j =
                 match exchange c i j with Some c' => Returned c' | None => Panicked end) ->
  Wrapped.Len wr original = Z.of_nat (length original) ->
  Plain.Keysort wr original = Returned pks ->
  Aware.Keysort wr original = Returned aks ->
  let pks' := Plain.performs wr pcs pks in
  let aks' := Aware.performs wr acs aks in
  (length (Plain.wrapped pks') = length (Plain.swaps pks') /\
   forall p, index (Plain.wrapped pks') p =
             match index (Plain.swaps pks') p with
             | Some id => index original id
             | None => None
             end) /\
  (length (Aware.wrapped aks') = length (Aware.swaps aks') /\
   forall p, index (Aware.wrapped aks') p =
             match index (Aware.swaps aks') p with
             | Some id => index original id
             | None => None
             end).
Proof.
  intros Hswap Hlen Hp Ha pks' aks'.
  pose proof (Plain.plain_Keysort_inv wr _ pks Hp) as (Hpw & Hps & _).
  pose proof (Aware.aware_Keysort_inv wr _ aks Ha) as (Haw & Has & _).
  split.
  - apply (plain_performs_tracking wr original Hswap pcs pks).
    rewrite Hpw, Hps, Hlen. apply tracked_identity.
  - apply (aware_performs_tracking wr original Hswap acs aks).
    rewrite Haw, Has, Hlen. apply tracked_identity.
Qed.

Lemma swaps_names_the_element_at_each_position_witness :
  let six := ByIntKey.withKeys [13; 11; 9; 12; 8; 10] in
  let pks' := Plain.performs ByIntKey.wrapped
                [Plain.CallSwap 0 5; Plain.CallLess 1 0; Plain.CallSwap 1 0;
                 Plain.CallSwap 7 0; Plain.CallPrime 1]
                {| Plain.wrapped := six; Plain.swaps := [0; 1; 2; 3; 4; 5];
                   Plain.memo := ∅; Plain.keyCalls := [] |} in
  length (Plain.wrapped pks') = length (Plain.swaps pks') /\
  forall p, index (Plain.wrapped pks') p =
            match index (Plain.swaps pks') p with
            | Some id => index six id
            | None => None
            end.
Proof.
  refine (proj1 (swaps_names_the_element_at_each_position ByIntKey.wrapped
    (ByIntKey.withKeys [13; 11; 9; 12; 8; 10])
    {| Plain.wrapped := ByIntKey.withKeys [13; 11; 9; 12; 8; 10];
       Plain.swaps := [0; 1; 2; 3; 4; 5]; Plain.memo := ∅; Plain.keyCalls := [] |}
    {| Aware.wrapped := ByIntKey.withKeys [13; 11; 9; 12; 8; 10];
       Aware.swaps := [0; 1; 2; 3; 4; 5]; Aware.memo := ∅; Aware.errors := ∅;
       Aware.keyCalls := [] |}
    [Plain.CallSwap 0 5; Plain.CallLess 1 0; Plain.CallSwap 1 0;
     Plain.CallSwap 7 0; Plain.CallPrime 1]
    [] (fun c i j => eq_refl) eq_refl eq_refl eq_refl)).
Defined.

(** ** What [Less] answers *)

Section LessAnswers.
Context {W K E : Type}.
Variable wr : Wrapped.Interface W K E.

(** A [Key] call that returns: the slot held an identity, the memo now has
    the returned value for it, and the container and the permutation map
    are as before. *)
Lemma plain_Key_returned i ks v err ks' :
  Plain.Key wr i ks = (Returned (v, err), ks') ->
  exists id, index (Plain.swaps ks) i = Some id /\ Plain.memo ks' !! id = Some v /\
             Plain.wrapped ks' = Plain.wrapped ks /\ Plain.swaps ks' = Plain.swaps ks.
Proof.
  unfold Plain.Key. destruct (index (Plain.swaps ks) i) as [id|]; [|done].
  destruct (Plain.memo ks !! id) as [v0|] eqn:Hm.
  - intros [= <- <- <-]. eauto.
  - simpl. destruct (Wrapped.Key wr (Plain.wrapped ks) id) as [[v0 err0]|]; [|done].
    intros [= <- <- <-]. exists id. simpl. by rewrite lookup_insert_eq.
Qed.

Lemma aware_Key_returned i ks v ks' :
  Aware.Key wr i ks = (Returned v, ks') ->
  exists id, index (Aware.swaps ks) i = Some id /\ Aware.memo ks' !! id = Some v /\
             Aware.wrapped ks' = Aware.wrapped ks /\ Aware.swaps ks' = Aware.swaps ks.
Proof.
  unfold Aware.Key. destruct (index (Aware.swaps ks) i) as [id|]; [|done].
  destruct (Aware.memo ks !! id) as [v0|] eqn:Hm.
  - intros [= <- <-]. eauto.
  - simpl. destruct (Wrapped.Key wr (Aware.wrapped ks) id) as [[v0 [e|]]|]; [| |done];
      intros [= <- <-]; exists id; simpl; by rewrite lookup_insert_eq.
Qed.

(** An adapter state with a recorded error, of the kind the adapter
    reaches. *)
Definition failing (ks : Aware.keySortable W K E) : Prop :=
  Aware.errors_cached ks /\ Aware.errors ks <> ∅.

Lemma failing_stays ks ks' : Aware.errors_stay ks ks' -> failing ks -> failing ks'.
Proof.
  intros Hs [Hc Hne]. destruct (Hs Hc) as [Hc' Hsub]. split; [done|].
  intros Hempty. apply Hne. apply map_empty. intros id.
  destruct (Aware.errors ks !! id) as [e|] eqn:He; [|done].
  eapply lookup_weaken in He; [|exact Hsub]. by rewrite Hempty, lookup_empty in He.
Qed.

(** [Less] without its last line: the two keys are resolved and the answer
    is [false]. *)
Definition resolveOnly (i j : Z) : go (Aware.keySortable W K E) bool :=
  _ <~ Aware.Key wr i ;; _ <~ Aware.Key wr j ;; ret false.

Definition degraded : Sort.Interface (Aware.keySortable W K E) :=
  {| Sort.Len := Aware.Len wr; Sort.Less := resolveOnly; Sort.Swap := Aware.Swap wr |}.

Lemma failing_Less i j ks :
  failing ks ->
  Aware.Less wr i j ks = resolveOnly i j ks /\ failing (Aware.Less wr i j ks).2.
Proof.
  intros Hf. split.
  - unfold Aware.Less, resolveOnly, bind.
    pose proof (failing_stays _ _ (Aware.aware_Key_errors_stay wr i ks) Hf) as Hf1.
    destruct (Aware.Key wr i ks) as [[a|] s1]; [|done]. simpl in Hf1.
    pose proof (failing_stays _ _ (Aware.aware_Key_errors_stay wr j s1) Hf1) as Hf2.
    destruct (Aware.Key wr j s1) as [[b|] s2]; [|done]. simpl in Hf2.
    destruct (Aware.Errors s2) eqn:HE; [done|].
    apply Aware.aware_Errors_None in HE. by destruct Hf2.
  - apply (failing_stays ks); [|done].
    apply (Aware.aware_perform_errors_stay wr ks (Aware.CallLess i j) eq_refl).
Qed.

Lemma failing_Swap i j ks : failing ks -> failing (Aware.Swap wr i j ks).2.
Proof.
  apply failing_stays.
  apply (Aware.aware_perform_errors_stay wr ks (Aware.CallSwap i j) eq_refl).
Qed.

Lemma failing_follow p ks :
  failing ks ->
  Sort.follow (Aware.adapter wr) p ks = Sort.follow degraded p ks.
Proof.
  revert ks. induction p as [|i j next IH|i j next IH]; intros ks Hf; cbn [Sort.follow].
  - done.
  - cbn [Sort.Swap Aware.adapter degraded]. unfold bind.
    pose proof (failing_Swap i j ks Hf) as Hf'.
    destruct (Aware.Swap wr i j ks) as [[[]|] s1]; [|done]. by apply IH.
  - cbn [Sort.Less Aware.adapter degraded]. unfold bind.
    destruct (failing_Less i j ks Hf) as [Heq Hf']. rewrite <- Heq.
    destruct (Aware.Less wr i j ks) as [[b|] s1]; [|done]. by apply IH.
Qed.

End LessAnswers.

(** X9. Whenever [Less(i, j)] returns, both positions are valid, the memo
    holds a value for the identities in slots [i] and [j], and the answer is
    [wrapped.LessVal] applied to these two values; in the error-aware
    version that is the answer only if no error is recorded at that moment,
    and [false] otherwise. The container and the permutation map are not
    changed. *)
Theorem Less_answers_from_the_memo {W K E} (wr : Wrapped.Interface W K E)
    (pks pks' : Plain.keySortable W K) (aks aks' : Aware.keySortable W K E)
    (i j : Z) (pb ab : bool) :
  Plain.Less wr i j pks = (Returned pb, pks') ->
  Aware.Less wr i j aks = (Returned ab, aks') ->
  (exists idi idj vi vj,
     index (Plain.swaps pks) i = Some idi /\ index (Plain.swaps pks) j = Some idj /\
     Plain.memo pks' !! idi = Some vi /\ Plain.memo pks' !! idj = Some vj /\
     pb = Wrapped.LessVal wr (Plain.wrapped pks) vi vj /\
     Plain.wrapped pks' = Plain.wrapped pks /\ Plain.swaps pks' = Plain.swaps pks) /\
  (exists idi idj vi vj,
     index (Aware.swaps aks) i = Some idi /\ index (Aware.swaps aks) j = Some idj /\
     Aware.memo aks' !! idi = Some vi /\ Aware.memo aks' !! idj = Some vj /\
     ab = (if decide (Aware.errors aks' = ∅)
           then Wrapped.LessVal wr (Aware.wrapped aks) vi vj else false) /\
     Aware.wrapped aks' = Aware.wrapped aks /\ Aware.swaps aks' = Aware.swaps aks).
Proof.
  intros Hp Ha. split.
  - unfold Plain.Less, bind in Hp.
    destruct (Plain.Key wr i pks) as [[[vi ei]|] s1] eqn:H1; [|done].
    pose proof (Plain.plain_Key_kept wr j s1) as [Hsub _].
    destruct (Plain.Key wr j s1) as [[[vj ej]|] s2] eqn:H2; [|done].
    injection Hp as <- <-.
    apply plain_Key_returned in H1 as (idi & Hi & Hmi & Hw1 & Hs1).
    apply plain_Key_returned in H2 as (idj & Hj & Hmj & Hw2 & Hs2).
    exists idi, idj, vi, vj. simpl in *.
    split; [done|]. split; [congruence|]. split; [by eapply lookup_weaken|].
    split; [done|]. split; [congruence|]. split; congruence.
  - unfold Aware.Less, bind in Ha.
    destruct (Aware.Key wr i aks) as [[vi|] s1] eqn:H1; [|done].
    pose proof (Aware.aware_Key_kept wr j s1) as [Hsub _].
    destruct (Aware.Key wr j s1) as [[vj|] s2] eqn:H2; [|done].
    apply aware_Key_returned in H1 as (idi & Hi & Hmi & Hw1 & Hs1).
    apply aware_Key_returned in H2 as (idj & Hj & Hmj & Hw2 & Hs2).
    assert (aks' = s2 /\ ab = if decide (Aware.errors s2 = ∅)
                              then Wrapped.LessVal wr (Aware.wrapped s2) vi vj
                              else false) as [-> ->].
    { destruct (Aware.Errors s2) eqn:HE.
      - injection Ha as <- <-. split; [done|]. rewrite decide_False; [done|].
        intros He. apply Aware.aware_Errors_None in He. congruence.
      - injection Ha as <- <-. split; [done|].
        apply Aware.aware_Errors_None in HE. by rewrite decide_True. }
    exists idi, idj, vi, vj. simpl in *.
    split; [done|]. split; [congruence|]. split; [by eapply lookup_weaken|].
    split; [done|]. split; [by rewrite Hw2, Hw1|]. split; congruence.
Qed.

Lemma Less_answers_from_the_memo_witness :
  let pks := {| Plain.wrapped := Specimen.GenSpecimen2; Plain.swaps := [1; 0];
                Plain.memo := {[ 1 := 0 ]}; Plain.keyCalls := [1] |} in
  exists pks' idi idj vi vj,
    index (Plain.swaps pks) 0 = Some idi /\ index (Plain.swaps pks) 1 = Some idj /\
    Plain.memo pks' !! idi = Some vi /\ Plain.memo pks' !! idj = Some vj /\
    true = ByIntKey.LessVal vi vj /\
    Plain.wrapped pks' = Plain.wrapped pks /\ Plain.swaps pks' = Plain.swaps pks.
Proof.
  eexists.
  refine (proj1 (Less_answers_from_the_memo ByIntKey.wrapped
    {| Plain.wrapped := Specimen.GenSpecimen2; Plain.swaps := [1; 0];
       Plain.memo := {[ 1 := 0 ]}; Plain.keyCalls := [1] |} _
    {| Aware.wrapped := Specimen.GenSpecimen2; Aware.swaps := [1; 0];
       Aware.memo := {[ 1 := 0 ]}; Aware.errors := ∅; Aware.keyCalls := [1] |} _
    0 1 true true _ _)); vm_compute; reflexivity.
Defined.

(** X10. Error-aware version: from a state reached after [Keysort] in which
    an identity has a recorded error, a sort run through the adapter goes
    exactly as if [Less] resolved its two keys and answered [false] every
    time: same outcome and same final state, for every sort algorithm. *)
Theorem sort_with_recorded_error_takes_false_branches {W K E}
    (wr : Wrapped.Interface W K E) (w : W) (ks0 : Aware.keySortable W K E)
    (before : list Aware.call) (id : Z) (e : E) (alg : Sort.algorithm) :
  Aware.Keysort wr w = Returned ks0 ->
  let ks := Aware.performs wr before ks0 in
  Aware.errors ks !! id = Some e ->
  Sort.Sort alg (Aware.adapter wr) ks = Sort.Sort alg (degraded wr) ks.
Proof.
  intros H0 ks He.
  assert (Hf : failing ks).
  { split.
    - apply Aware.aware_performs_errors_cached.
      by eapply Aware.aware_Keysort_errors_cached.
    - intros Hempty. by rewrite Hempty, lookup_empty in He. }
  unfold Sort.Sort. cbn [Sort.Len Aware.adapter degraded]. unfold Aware.Len.
  by apply failing_follow.
Qed.

Lemma sort_with_recorded_error_takes_false_branches_witness :
  let ks := Aware.performs FailsAt3.wrapped [Aware.CallPrimer 1]
              {| Aware.wrapped := FailsAt3.six; Aware.swaps := [0; 1; 2; 3; 4; 5];
                 Aware.memo := ∅; Aware.errors := ∅; Aware.keyCalls := [] |} in
  Sort.Sort Algorithms.insertionSort (Aware.adapter FailsAt3.wrapped) ks
  = Sort.Sort Algorithms.insertionSort (degraded FailsAt3.wrapped) ks.
Proof.
  refine (sort_with_recorded_error_takes_false_branches FailsAt3.wrapped FailsAt3.six
    {| Aware.wrapped := FailsAt3.six; Aware.swaps := [0; 1; 2; 3; 4; 5];
       Aware.memo := ∅; Aware.errors := ∅; Aware.keyCalls := [] |}
    [Aware.CallPrimer 1] 3 "no key for 3"%string Algorithms.insertionSort eq_refl _).
  vm_compute. reflexivity.
Defined.

(** ** Sorting the containers of the tests through a primed adapter *)

(** [type ByStringKey struct {SpecimenSliceSorter}]; Go compares strings
    byte by byte, as [String.ltb] does. *)
Module ByStringKey.
Import Specimen.

(** [func (s ByStringKey) Less(i, j int) bool] *)
Definition Less (i j : Z) : go SpecimenSliceSorter bool := fun s =>
  match At s i with
  | Panicked => (Panicked, s)
  | Returned a =>
      match At s j with
      | Panicked => (Panicked, s)
      | Returned b => (Returned (String.ltb (StringKey a) (StringKey b)), s)
      end
  end.

(** [func (s ByStringKey) LessVal(i, j interface{}) bool] *)
Definition LessVal (i j : string) : bool := String.ltb i j.

(** [func (s ByStringKey) Key(i int) (interface{}, error)] *)
Definition Key (s : SpecimenSliceSorter) (i : Z) : outcome (string * option string) :=
  match At s i with
  | Panicked => Panicked
  | Returned e => Returned (StringKey e, None)
  end.

Definition wrapped : Wrapped.Interface SpecimenSliceSorter string string :=
  {| Wrapped.LessVal := fun _ => LessVal;
     Wrapped.Key := Key;
     Wrapped.Swap := Swap;
     Wrapped.Len := Len |}.

Definition direct : Sort.Interface SpecimenSliceSorter :=
  {| Sort.Len := fun s => (Returned (Len s), s);
     Sort.Less := Less;
     Sort.Swap := fun i j s =>
       match Swap s i j with
       | Returned s' => (Returned tt, s')
       | Panicked => (Panicked, s)
       end |}.

End ByStringKey.

(** The shape shared by [ByIntKey] and [ByStringKey]: [Key(i)] is a field
    [field] of the element at [i], [Less(i, j)] is [lessVal] on that field
    of the elements at [i] and [j]. *)
Section Keyed.
Import Specimen.
Context {K : Type}.
Variable field : ExampleToSort -> K.
Variable lessVal : K -> K -> bool.

















End Keyed.





(** ** The generator of the tests *)

Module Rand.
Section Source.
(** The values the generator of [math/rand] produces, in order; the state
    is the number of values taken so far. *)
Variable source : nat -> Z.

(** [rand.Intn(n)]: a value of [[0, n)]; panics when [n <= 0]. *)
Definition Intn (n : Z) : go nat Z := fun taken =>
  if decide (n <= 0) then (Panicked, taken)
  else (Returned (source taken `mod` n), S taken).

End Source.
End Rand.

Module Gen.
Import Specimen.
Section Source.
Variable source : nat -> Z.

(** [string(byte(x))]: the byte is [x] modulo 256, and the conversion of an
    integer to a string gives the UTF-8 encoding of that code point, one
    byte below 128 and two bytes from 128 on. *)
Definition stringOfByte (x : Z) : string :=
  let b := x `mod` 256 in
  if decide (b < 128) then String (Ascii.ascii_of_N (Z.to_N b)) EmptyString
  else String (Ascii.ascii_of_N (Z.to_N (192 + b / 64)))
         (String (Ascii.ascii_of_N (Z.to_N (128 + b `mod` 64))) EmptyString).

(** The [switch i] of the loop body. *)
Definition example (num i : Z) : go nat ExampleToSort :=
  if decide (i = 0) then ret {| NotKey := 0; IntKey := 1; StringKey := "bbb" |}
  else if decide (i = 1) then ret {| NotKey := 1; IntKey := 0; StringKey := "aaa" |}
  else
    notKey <~ Rand.Intn source num ;;
    intKey <~ Rand.Intn source num ;;
    stringKey <~ Rand.Intn source num ;;
    ret {| NotKey := notKey; IntKey := intKey; StringKey := stringOfByte stringKey |}.

(** [for i := 0; i < num; i++ { ...; result[i] = example }], for the
    values of [i] still to come. *)
Fixpoint fill (num : Z) (todo : list Z) (result : SpecimenSliceSorter)
  : go nat SpecimenSliceSorter :=
  match todo with
  | [] => ret result
  | i :: todo' => e <~ example num i ;; fill num todo' (store result i e)
  end.

(** The largest length for which [make([]ExampleToSort, n)] can
    allocate. *)
Variable maxLen : Z.

(** [func GenSpecimen(num int) []ExampleToSort]: [make] panics on a negative
    length and on a length it cannot allocate, and fills the slice with zero
    values. *)
Definition GenSpecimen (num : Z) : go nat SpecimenSliceSorter := fun taken =>
  if decide (num < 0 \/ maxLen < num) then (Panicked, taken)
  else fill num (iota num)
         (replicate (Z.to_nat num) {| NotKey := 0; IntKey := 0; StringKey := "" |})
         taken.

(** What the loop body makes for index [i]. *)
Definition made (num i : Z) (e : ExampleToSort) : Prop :=
  (i = 0 -> e = {| NotKey := 0; IntKey := 1; StringKey := "bbb" |}) /\
  (i = 1 -> e = {| NotKey := 1; IntKey := 0; StringKey := "aaa" |}) /\
  (2 <= i -> 0 <= NotKey e < num /\ 0 <= IntKey e < num).

Lemma example_made num i taken :
  0 <= i < num ->
  exists e taken', example num i taken = (Returned e, taken') /\ made num i e.
Proof.
  intros Hi. unfold example. case_decide as H0.
  { eexists _, _. split; [done|]. repeat split; lia. }
  case_decide as H1.
  { eexists _, _. split; [done|]. repeat split; lia. }
  unfold bind, Rand.Intn. rewrite !decide_False by lia.
  eexists _, _. split; [done|]. split; [lia|]. split; [lia|]. intros _. simpl.
  split; apply Z.mod_pos_bound; lia.
Qed.

Lemma fill_made num todo result taken :
  length result = Z.to_nat num -> Forall (fun i => 0 <= i < num) todo -> NoDup todo ->
  exists s taken',
    fill num todo result taken = (Returned s, taken') /\
    length s = Z.to_nat num /\
    (forall i, i ∉ todo -> index s i = index result i) /\
    (forall i, i ∈ todo -> exists e, index s i = Some e /\ made num i e).
Proof.
  revert result taken. induction todo as [|i todo IH]; intros result taken Hlen Hr Hnd.
  - exists result, taken. repeat split; try done. intros i Hi. by apply elem_of_nil in Hi.
  - apply Forall_cons in Hr as [Hi Hr]. apply NoDup_cons in Hnd as [Hit Hnd].
    destruct (example_made num i taken Hi) as (e & taken1 & He & Hmade).
    destruct (IH (store result i e) taken1) as (s & taken' & Hfill & Hlen' & Hout & Hin);
      [by rewrite length_store | done | done |].
    exists s, taken'. split; [cbn [fill]; unfold bind; by rewrite He|].
    split; [done|].
    assert (Hir : in_range (length result) i) by (unfold in_range; lia).
    split.
    + intros k Hk. apply not_elem_of_cons in Hk as [Hne Hk].
      rewrite (Hout k Hk), index_store by done. by rewrite decide_False.
    + intros k [->|Hk]%elem_of_cons; [|by apply Hin].
      exists e. split; [|done]. rewrite (Hout i Hit), index_store by done.
      by rewrite decide_True.
Qed.

End Source.
End Gen.

(** X13. [GenSpecimen(num)] panics for a negative [num] and for a [num]
    above the largest length [maxLen] that [make] can allocate; for [num]
    from 0 to [maxLen], whatever the random generator gives, it returns a
    slice of [num] elements in which the element at 0 has [IntKey] 1 and
    [StringKey] "bbb", the element at 1 has [IntKey] 0 and [StringKey]
    "aaa", and every later element has its [NotKey] and [IntKey] in
    [[0, num)]. So for [num >= 2] the result is out of order at its first
    two positions for [ByIntKey] and for [ByStringKey]: [Less(1, 0)] is
    true. *)
Theorem GenSpecimen_first_two_out_of_order (source : nat -> Z) (maxLen num : Z)
    (taken : nat) :
  (num < 0 \/ maxLen < num -> (Gen.GenSpecimen source maxLen num taken).1 = Panicked) /\
  (0 <= num <= maxLen ->
   exists s taken',
     Gen.GenSpecimen source maxLen num taken = (Returned s, taken') /\
     Specimen.Len s = num /\
     (forall i, 0 <= i < num -> exists e, index s i = Some e /\ Gen.made num i e) /\
     (2 <= num ->
      (ByIntKey.Less 1 0 s).1 = Returned true /\
      (ByStringKey.Less 1 0 s).1 = Returned true)).
Proof.
  unfold Gen.GenSpecimen. split.
  - intros H. by rewrite decide_True.
  - intros H. rewrite decide_False by lia.
    destruct (Gen.fill_made source num (iota num)
                (replicate (Z.to_nat num)
                   {| Specimen.NotKey := 0; Specimen.IntKey := 0;
                      Specimen.StringKey := "" |}) taken)
      as (s & taken' & Hfill & Hlen & _ & Hin);
      [apply length_replicate | apply iota_range | apply iota_NoDup |].
    exists s, taken'. split; [done|]. split; [unfold Specimen.Len; lia|].
    assert (Hall : forall i, 0 <= i < num ->
              exists e, index s i = Some e /\ Gen.made num i e).
    { intros i Hi. apply Hin. by apply iota_elem. }
    split; [done|]. intros H2.
    destruct (Hall 0) as (e0 & He0 & (H0 & _)); [lia|].
    destruct (Hall 1) as (e1 & He1 & (_ & H1 & _)); [lia|].
    rewrite H0 in He0 by done. rewrite H1 in He1 by done.
    unfold ByIntKey.Less, ByStringKey.Less, Specimen.At. rewrite He0, He1. done.
Qed.

(** ** After a failure *)

Section Failures.
Context {W K E : Type}.
Variable wr : Wrapped.Interface W K E.

(** Every identity of the memo was given to [wrapped.Key]. *)
Definition memo_called (ks : Aware.keySortable W K E) : Prop :=
  forall id, is_Some (Aware.memo ks !! id) -> id ∈ Aware.keyCalls ks.

Definition keeps_memo_called (ks ks' : Aware.keySortable W K E) : Prop :=
  memo_called ks -> memo_called ks'.

#[local] Instance keeps_memo_called_preorder : PreOrder keeps_memo_called.
Proof. split; [by intros ks ?|]. intros ks1 ks2 ks3 H1 H2 H. auto. Qed.

Lemma aware_Key_memo_called i ks : keeps_memo_called ks (Aware.Key wr i ks).2.
Proof.
  intros H. unfold Aware.Key. destruct (index (Aware.swaps ks) i) as [id|]; [|done].
  destruct (Aware.memo ks !! id) as [v|] eqn:Hm; [done|]. simpl.
  destruct (Wrapped.Key wr (Aware.wrapped ks) id) as [[v [err|]]|]; simpl.
  - intros k Hk. simpl in *. apply elem_of_cons.
    destruct (decide (k = id)) as [->|Hne]; [by left|].
    right. apply H. rewrite lookup_insert_ne in Hk by congruence. done.
  - intros k Hk. simpl in *. apply elem_of_cons.
    destruct (decide (k = id)) as [->|Hne]; [by left|].
    right. apply H. rewrite lookup_insert_ne in Hk by congruence. done.
  - intros k Hk. simpl in *. apply elem_of_cons. right. by apply H.
Qed.

Lemma aware_perform_memo_called ks c : keeps_memo_called ks (Aware.perform wr ks c).
Proof.
  destruct c; cbn [Aware.perform].
  - apply aware_Key_memo_called.
  - unfold Aware.Less. apply (bind_preserved keeps_memo_called);
      [apply aware_Key_memo_called|].
    intros a s. apply (bind_preserved keeps_memo_called); [apply aware_Key_memo_called|].
    intros b s'. by destruct (Aware.Errors s').
  - unfold Aware.Swap. destruct (exchange (Aware.swaps ks) i j); [|done]. simpl.
    destruct (Wrapped.Swap wr (Aware.wrapped ks) i j); intros H; exact H.
  - done.
  - unfold Aware.memoize. apply (each_preserved keeps_memo_called). intros x s.
    apply (bind_preserved keeps_memo_called); [apply aware_Key_memo_called | done].
  - rewrite Aware.aware_ClearErrors_eq. intros H. exact H.
  - rewrite Aware.aware_RetryFailed_eq. intros H. exact H.
Qed.

Lemma aware_performs_memo_called cs ks : keeps_memo_called ks (Aware.performs wr cs ks).
Proof. apply (foldl_preserved keeps_memo_called). apply aware_perform_memo_called. Qed.

End Failures.

(** X14. Error-aware version: in every state reached from [Keysort], an
    identity with a recorded error was given to [wrapped.Key] and has the
    value returned with the error in the memo; so [Key] for a position
    holding it returns that value and does not call [wrapped.Key]: a failed
    computation is not tried again. *)
Theorem recorded_error_has_cached_value {W K E} (wr : Wrapped.Interface W K E) (w : W)
    (ks0 : Aware.keySortable W K E) (cs : list Aware.call) (id : Z) (e : E) :
  Aware.Keysort wr w = Returned ks0 ->
  let ks := Aware.performs wr cs ks0 in
  Aware.errors ks !! id = Some e ->
  id ∈ Aware.keyCalls ks /\
  exists v, Aware.memo ks !! id = Some v /\
            forall i, index (Aware.swaps ks) i = Some id ->
                      Aware.Key wr i ks = (Returned v, ks).
Proof.
  intros H0 ks He.
  assert (Hc : Aware.errors_cached ks).
  { apply Aware.aware_performs_errors_cached. by eapply Aware.aware_Keysort_errors_cached. }
  destruct (Hc id) as [v Hv]; [eauto|].
  split.
  - apply (aware_performs_memo_called wr cs ks0); [|eauto].
    apply Aware.aware_Keysort_inv in H0 as (_ & _ & Hm & _).
    intros k [? Hk]. by rewrite Hm, lookup_empty in Hk.
  - exists v. split; [done|]. intros i Hi. by apply Aware.aware_Key_cached with id.
Qed.

Lemma recorded_error_has_cached_value_witness :
  let ks := Aware.performs FailsAt3.wrapped [Aware.CallLess 3 0; Aware.CallSwap 3 5]
              {| Aware.wrapped := FailsAt3.six; Aware.swaps := [0; 1; 2; 3; 4; 5];
                 Aware.memo := ∅; Aware.errors := ∅; Aware.keyCalls := [] |} in
  3 ∈ Aware.keyCalls ks /\
  exists v, Aware.memo ks !! 3 = Some v /\
            forall i, index (Aware.swaps ks) i = Some 3 ->
                      Aware.Key FailsAt3.wrapped i ks = (Returned v, ks).
Proof.
  refine (recorded_error_has_cached_value FailsAt3.wrapped FailsAt3.six
    {| Aware.wrapped := FailsAt3.six; Aware.swaps := [0; 1; 2; 3; 4; 5];
       Aware.memo := ∅; Aware.errors := ∅; Aware.keyCalls := [] |}
    [Aware.CallLess 3 0; Aware.CallSwap 3 5] 3 "no key for 3"%string eq_refl _).
  vm_compute. reflexivity.
Defined.
